(** * Vectored socket I/O with descriptor passing: unix_recv_send_utils.c

    A shallow embedding of the four C functions of
    [src/unix/unix_c/unix_recv_send_utils.c] (Lwt's stubs for [recvmsg]
    and [sendmsg]) and the properties their specification states.

    Conventions of the embedding, fixed once for the whole file:
    - C integers are [Z] and every conversion between C types is written
      out ([to_int], [to_size_t], [ptr_add]); the ABI is LP64 (Linux,
      x86-64, little endian): [int] has 32 bits, [size_t] and pointers 64;
    - OCaml heap values are the inductive type [value]; [Is_block] and
      [Field] of the OCaml runtime are pattern matching on it;
    - a C array reached through a pointer is a list together with an index;
      an access outside the array, or a field read from a value that has no
      such field, is undefined behaviour and shows as [None]/[Undefined];
    - the operating system is an interface ([Posix]) the wrappers are
      parametric in; [Kernel] gives one instance, a connected socket with
      message boundaries, used where a property speaks of the peer. *)

From stdpp Require Import base option list strings.
From Stdlib Require Import ZArith Lia.

#[local] Set Warnings "-register-all".
#[local] Open Scope Z_scope.

(** ** Machine integers *)

Definition INT_MAX : Z := 2 ^ 31 - 1.
Definition INT_MIN : Z := - 2 ^ 31.
Definition SIZE_MAX : Z := 2 ^ 64 - 1.

(** Conversion to [int]: keep the low 32 bits, read as two's complement. *)
Definition to_int (z : Z) : Z := (z + 2 ^ 31) mod 2 ^ 32 - 2 ^ 31.

(** Conversion to [size_t], and arithmetic in [size_t]. *)
Definition to_size_t (z : Z) : Z := z mod 2 ^ 64.

(** [p + n] on a [char *]. *)
Definition ptr_add (p n : Z) : Z := (p + n) mod 2 ^ 64.

Definition sizeof_int : Z := 4.

(** ** OCaml values *)

Inductive value : Type :=
  | Val_long (n : Z)                         (* an immediate integer *)
  | Block (fields : list value)              (* tuple, record or cons cell *)
  | Bytes_block (addr : Z) (data : list Z)   (* string/bytes: its address, its bytes *)
  | Bigarray_block (data : Z).               (* custom block of a bigarray: its data pointer *)

Definition Val_int (n : Z) : value := Val_long n.
Definition Val_unit : value := Val_long 0.

Definition Is_block (v : value) : bool :=
  match v with Val_long _ => false | _ => true end.

Definition Field (v : value) (i : nat) : option value :=
  match v with Block fs => fs !! i | _ => None end.

Definition Long_val (v : value) : option Z :=
  match v with Val_long n => Some n | _ => None end.

(** [Int_val(v)] is [(int) Long_val(v)]. *)
Definition Int_val (v : value) : option Z := to_int <$> Long_val v.

(** [String_val(v)]: the address of the first byte of a string block. *)
Definition String_val (v : value) : option Z :=
  match v with Bytes_block a _ => Some a | _ => None end.

Definition Caml_ba_data_val (v : value) : option Z :=
  match v with Bigarray_block d => Some d | _ => None end.

(** The OCaml list [[v1; ...; vn]] as a heap value. *)
Fixpoint caml_list (vs : list value) : value :=
  match vs with
  | [] => Val_long 0
  | v :: r => Block [v; caml_list r]
  end.

(** The OCaml list of integers a value stands for. *)
Fixpoint int_list_of (v : value) : option (list Z) :=
  match v with
  | Val_long _ => Some []
  | Block (Val_long n :: tl :: _) => (n ::.) <$> int_list_of tl
  | _ => None
  end.

(** ** The vector builders *)

Record iovec : Type := { iov_base : Z; iov_len : Z }.

(** [iovs[p] = e] in an array of [length iovs] entries. *)
Definition store_iov (iovs : list iovec) (p : nat) (e : iovec) : option (list iovec) :=
  if decide (p < length iovs)%nat then Some (<[p := e]> iovs) else None.

(** One iteration's entry, [store_iovs]: the buffer is a string. *)
Definition iov_of_string_triple (x : value) : option iovec :=
  f0 ← Field x 0; s ← String_val f0;
  f1 ← Field x 1; off ← Long_val f1;
  f2 ← Field x 2; len ← Long_val f2;
  Some {| iov_base := ptr_add s off; iov_len := to_size_t len |}.

(** One iteration's entry, [bytes_store_iovs]: the buffer is a bigarray. *)
Definition iov_of_bigarray_triple (x : value) : option iovec :=
  f0 ← Field x 0; d ← Caml_ba_data_val f0;
  f1 ← Field x 1; off ← Long_val f1;
  f2 ← Field x 2; len ← Long_val f2;
  Some {| iov_base := ptr_add d off; iov_len := to_size_t len |}.

(** [for (list = iovs_val; Is_block(list); list = Field(list, 1), iovs++)]:
    the pointer [iovs] is the array with the index [p], [l] is [list]. *)
Fixpoint store_iovs (iovs : list iovec) (p : nat) (l : value) : option (list iovec) :=
  match l with
  | Val_long _ => Some iovs
  | Block (x :: tl :: _) =>
      e ← iov_of_string_triple x;
      iovs' ← store_iov iovs p e;
      store_iovs iovs' (S p) tl
  | _ => None
  end.

Fixpoint bytes_store_iovs (iovs : list iovec) (p : nat) (l : value) : option (list iovec) :=
  match l with
  | Val_long _ => Some iovs
  | Block (x :: tl :: _) =>
      e ← iov_of_bigarray_triple x;
      iovs' ← store_iov iovs p e;
      bytes_store_iovs iovs' (S p) tl
  | _ => None
  end.

(** The two kinds of buffer descriptor of the OCaml side,
    [{iov_buffer; iov_offset; iov_length}]. *)
Record buffer_descriptor : Type := {
  region_base : Z;        (* address of the backing region *)
  region_bytes : list Z;  (* what the region holds *)
  offset : Z;
  len : Z
}.

Definition managed_val (d : buffer_descriptor) : value :=
  Block [Bytes_block (region_base d) (region_bytes d); Val_long (offset d); Val_long (len d)].

Definition external_val (d : buffer_descriptor) : value :=
  Block [Bigarray_block (region_base d); Val_long (offset d); Val_long (len d)].

(** The low-level entry a descriptor stands for. *)
Definition lower (d : buffer_descriptor) : iovec :=
  {| iov_base := region_base d + offset d; iov_len := len d |}.

(** Offsets and lengths are non-negative and the addressed byte exists. *)
Definition valid_descriptor (d : buffer_descriptor) : Prop :=
  0 <= region_base d /\ 0 <= offset d /\ 0 <= len d <= SIZE_MAX /\
  region_base d + offset d <= SIZE_MAX.

(** ** Bytes in a buffer *)

(** A buffer is the list of its bytes, each in [0, 256); multi-byte
    fields are little endian. *)
Fixpoint le_bytes (n : nat) (v : Z) : list Z :=
  match n with
  | O => []
  | S k => v mod 256 :: le_bytes k (v / 256)
  end.

Fixpoint le_value (bs : list Z) : Z :=
  match bs with
  | [] => 0
  | b :: r => b + 256 * le_value r
  end.

Definition in_bounds (n : nat) (buf : list Z) (off : Z) : Prop :=
  0 <= off /\ off + Z.of_nat n <= Z.of_nat (length buf).

(** Read an [n]-byte unsigned field at byte offset [off]; [None] outside
    the buffer. *)
Definition load (n : nat) (buf : list Z) (off : Z) : option Z :=
  if decide (in_bounds n buf off)
  then Some (le_value (take n (drop (Z.to_nat off) buf)))
  else None.

(** Write an [n]-byte field at byte offset [off]. *)
Definition store (n : nat) (buf : list Z) (off : Z) (v : Z) : option (list Z) :=
  if decide (in_bounds n buf off)
  then Some (take (Z.to_nat off) buf ++ le_bytes n v ++ drop (Z.to_nat off + n) buf)
  else None.

Definition load_int (buf : list Z) (off : Z) : option Z := to_int <$> load 4 buf off.
Definition load_size_t (buf : list Z) (off : Z) : option Z := load 8 buf off.
Definition store_int (buf : list Z) (off v : Z) : option (list Z) := store 4 buf off v.
Definition store_size_t (buf : list Z) (off v : Z) : option (list Z) := store 8 buf off v.

(** ** <sys/socket.h>: message headers and control messages *)

Record msghdr : Type := {
  msg_name : option Z;
  msg_namelen : Z;
  msg_iov : list iovec;             (* the array [msg_iov] points to *)
  msg_iovlen : Z;
  msg_control : option (list Z);    (* [None] is NULL, else the buffer pointed to *)
  msg_controllen : Z;
  msg_flags : Z
}.

(** [memset(&msg, 0, sizeof(msg))]. *)
Definition msghdr_zero : msghdr :=
  {| msg_name := None; msg_namelen := 0; msg_iov := []; msg_iovlen := 0;
     msg_control := None; msg_controllen := 0; msg_flags := 0 |}.

Definition set_iov (msg : msghdr) (iovs : list iovec) (n : Z) : msghdr :=
  {| msg_name := msg_name msg; msg_namelen := msg_namelen msg;
     msg_iov := iovs; msg_iovlen := n;
     msg_control := msg_control msg; msg_controllen := msg_controllen msg;
     msg_flags := msg_flags msg |}.

Definition set_control (msg : msghdr) (ctl : option (list Z)) (n : Z) : msghdr :=
  {| msg_name := msg_name msg; msg_namelen := msg_namelen msg;
     msg_iov := msg_iov msg; msg_iovlen := msg_iovlen msg;
     msg_control := ctl; msg_controllen := n;
     msg_flags := msg_flags msg |}.

Definition SOL_SOCKET : Z := 1.
Definition SCM_RIGHTS : Z := 1.

(** [struct cmsghdr { size_t cmsg_len; int cmsg_level; int cmsg_type; }],
    followed by the data. A [struct cmsghdr *] is a byte offset into the
    control buffer. *)
Definition sizeof_cmsghdr : Z := 16.
Definition off_cmsg_len : Z := 0.
Definition off_cmsg_level : Z := 8.
Definition off_cmsg_type : Z := 12.

(** [(len + sizeof(size_t) - 1) & (size_t) ~(sizeof(size_t) - 1)]. *)
Definition CMSG_ALIGN (len : Z) : Z :=
  to_size_t (Z.land (len + 8 - 1) (Z.lnot (8 - 1))).

Definition CMSG_SPACE (len : Z) : Z :=
  to_size_t (CMSG_ALIGN len + CMSG_ALIGN sizeof_cmsghdr).

Definition CMSG_LEN (len : Z) : Z :=
  to_size_t (CMSG_ALIGN sizeof_cmsghdr + len).

Definition CMSG_DATA (cm : Z) : Z := cm + sizeof_cmsghdr.

(** [msg_controllen >= sizeof(struct cmsghdr) ? msg_control : NULL]. *)
Definition CMSG_FIRSTHDR (msg : msghdr) : option Z :=
  if decide (sizeof_cmsghdr <= msg_controllen msg)
  then match msg_control msg with Some _ => Some 0 | None => None end
  else None.

(** A pointer computed from a pointer into the control buffer, as an
    offset. The library compares such pointers with the end of the control
    data even when they lie past it, so they are not confined to the buffer;
    one that would leave the range of [ptrdiff_t] is undefined ([None]). *)
Definition PTRDIFF_MAX : Z := 2 ^ 63 - 1.

Definition ptr_off (z : Z) : option Z :=
  if decide (0 <= z <= PTRDIFF_MAX) then Some z else None.

(** [__cmsg_nxthdr] of the GNU C library (as it was until 2.36): null
    when [cmsg_len] is less than a header, or when the next header or the
    record it announces does not lie within [msg_controllen]. The outer option
    is the undefined read or pointer, the inner one the null pointer. *)
Definition CMSG_NXTHDR (msg : msghdr) (ctl : list Z) (cm : Z) : option (option Z) :=
  len ← load_size_t ctl (cm + off_cmsg_len);
  if decide (len < sizeof_cmsghdr) then Some None
  else
    nxt ← ptr_off (cm + CMSG_ALIGN len);
    if decide (nxt + sizeof_cmsghdr > msg_controllen msg) then Some None
    else
      len' ← load_size_t ctl (nxt + off_cmsg_len);
      past ← ptr_off (nxt + CMSG_ALIGN len');
      if decide (past > msg_controllen msg) then Some None
      else Some (Some nxt).

(** ** Results of a stub *)

Inductive exn : Type :=
  | Unix_error (code : Z) (fn : string) (arg : string)
  | Not_available (feature : string).

Inductive outcome (A : Type) : Type :=
  | Returns (a : A)
  | Raises (e : exn)
  | Undefined        (* undefined behaviour of the C code *)
  | OutOfFuel.       (* a loop that did not end within the fuel given *)
Arguments Returns {A} a.
Arguments Raises {A} e.
Arguments Undefined {A}.
Arguments OutOfFuel {A}.

#[global] Instance outcome_ret : MRet outcome := fun A a => Returns a.
#[global] Instance outcome_bind : MBind outcome := fun A B f m =>
  match m with
  | Returns a => f a
  | Raises e => Raises e
  | Undefined => Undefined
  | OutOfFuel => OutOfFuel
  end.

(** A read or write that may be undefined. *)
Definition defined {A : Type} (o : option A) : outcome A :=
  match o with Some a => Returns a | None => Undefined end.

(** [uerror(cmdname, cmdarg)] of OCaml's unix library: raise
    [Unix.Unix_error (errno, cmdname, cmdarg)]; [Nothing] is the empty
    argument. *)
Definition Nothing : option string := None.
Definition uerror {A : Type} (errno : Z) (cmdname : string) (cmdarg : option string) : outcome A :=
  Raises (Unix_error errno cmdname (default EmptyString cmdarg)).

(** Modelled from the spec: [lwt_unix_not_available], declared in
    lwt_unix.h and defined outside this file. The spec's FeatureUnavailable
    is a typed failure raised to the caller, which here carries the name of
    the feature the stub passes. *)
Definition lwt_unix_not_available {A : Type} (feature : string) : outcome A :=
  Raises (Not_available feature).

(** ** The operating system *)

(** What the stubs use of the system: [errno] and the two calls. A call
    takes the descriptor, the message header and the flags, and gives the
    value returned (an [ssize_t]), for [recvmsg] the header and the control
    buffer as the kernel left them, and the state after. *)
Class Posix (OS : Type) : Type := {
  errno : OS -> Z;
  recvmsg : Z -> msghdr -> Z -> OS -> Z * msghdr * OS;
  sendmsg : Z -> msghdr -> Z -> OS -> Z * OS
}.

(** ** The two wrappers *)

Section Stubs.
Context {OS : Type} `{!Posix OS}.

(** Whether lwt_config.h defines [HAVE_FD_PASSING]. *)
Variable HAVE_FD_PASSING : bool.

(** *** wrapper_recv_msg *)

(** The header [wrapper_recv_msg] has built when it calls [recvmsg]:
    all zero, then the vector, then (with descriptor passing) a zeroed
    control buffer from [alloca]. *)
Definition recv_msghdr (n_iovs : Z) (iovs : list iovec) : msghdr :=
  let msg := set_iov msghdr_zero iovs (to_size_t n_iovs) in
  if HAVE_FD_PASSING then
    let controllen := CMSG_SPACE (to_size_t (256 * sizeof_int)) in
    set_control msg (Some (replicate (Z.to_nat controllen) 0)) controllen
  else msg.

(** [for (i = nfds - 1; i >= 0; i--)], with [k = i + 1]: cons [fds[i]]
    in front of [l]. *)
Fixpoint prepend_fds (ctl : list Z) (fds : Z) (k : nat) (l : value) : outcome value :=
  match k with
  | O => Returns l
  | S i =>
      fd ← defined (load_int ctl (fds + sizeof_int * Z.of_nat i));
      prepend_fds ctl fds i (Block [Val_int fd; l])
  end.

(** The body run at the first record of level [SOL_SOCKET] and type
    [SCM_RIGHTS]. *)
Definition collect_rights (ctl : list Z) (cm : Z) (l : value) : outcome value :=
  len ← defined (load_size_t ctl (cm + off_cmsg_len));
  let fds := CMSG_DATA cm in
  let nfds := to_int (to_size_t (len - CMSG_LEN 0) / sizeof_int) in
  prepend_fds ctl fds (Z.to_nat nfds) l.

(** [for (cm = CMSG_FIRSTHDR(&msg); cm; cm = CMSG_NXTHDR(&msg, cm))]
    with its [break]. *)
Fixpoint scan_cmsgs (fuel : nat) (msg : msghdr) (ctl : list Z) (cm : option Z)
    (l : value) : outcome value :=
  match cm with
  | None => Returns l
  | Some c =>
      match fuel with
      | O => OutOfFuel
      | S fuel' =>
          level ← defined (load_int ctl (c + off_cmsg_level));
          rights ← (if decide (level = SOL_SOCKET)
                    then ty ← defined (load_int ctl (c + off_cmsg_type));
                         Returns (bool_decide (ty = SCM_RIGHTS))
                    else Returns false);
          if rights : bool then collect_rights ctl c l
          else
            nxt ← defined (CMSG_NXTHDR msg ctl c);
            scan_cmsgs fuel' msg ctl nxt l
      end
  end.

(** The descriptor list built after the call. *)
Definition recv_fds (msg : msghdr) : outcome value :=
  let l := Val_int 0 in
  if HAVE_FD_PASSING then
    scan_cmsgs (S (Z.to_nat (msg_controllen msg))) msg
               (default [] (msg_control msg)) (CMSG_FIRSTHDR msg) l
  else Returns l.

Definition wrapper_recv_msg (fd n_iovs : Z) (iovs : list iovec) (w : OS)
    : outcome value * OS :=
  let '(r, msg, w') := recvmsg fd (recv_msghdr n_iovs iovs) 0 w in
  let ret := to_int r in
  if decide (ret = -1) then (uerror (errno w') "recv_msg" Nothing, w')
  else (l ← recv_fds msg; Returns (Block [Val_int ret; l]), w').

(** *** wrapper_send_msg *)

(** [for (; Is_block(val_fds); val_fds = Field(val_fds, 1), fds++)
      *fds = Int_val(Field(val_fds, 0));] *)
Fixpoint write_fds (ctl : list Z) (fds : Z) (val_fds : value) : option (list Z) :=
  match val_fds with
  | Val_long _ => Some ctl
  | Block (hd :: tl :: _) =>
      fd ← Int_val hd;
      ctl' ← store_int ctl fds fd;
      write_fds ctl' (fds + sizeof_int) tl
  | _ => None
  end.

(** The control buffer of a send with [n_fds > 0]. *)
Definition send_control (msg : msghdr) (n_fds : Z) (val_fds : value) : outcome msghdr :=
  let controllen := CMSG_SPACE (to_size_t (to_size_t n_fds * sizeof_int)) in
  let ctl := replicate (Z.to_nat controllen) 0 in
  let msg := set_control msg (Some ctl) controllen in
  cm ← defined (CMSG_FIRSTHDR msg);
  ctl ← defined (store_int ctl (cm + off_cmsg_level) SOL_SOCKET);
  ctl ← defined (store_int ctl (cm + off_cmsg_type) SCM_RIGHTS);
  ctl ← defined (store_size_t ctl (cm + off_cmsg_len)
                   (CMSG_LEN (to_size_t (to_size_t n_fds * sizeof_int))));
  ctl ← defined (write_fds ctl (CMSG_DATA cm) val_fds);
  Returns (set_control msg (Some ctl) controllen).

(** The header [wrapper_send_msg] has built when it reaches [sendmsg],
    or the exception that stops it before. *)
Definition send_msghdr (n_iovs : Z) (iovs : list iovec) (val_n_fds val_fds : value)
    : outcome msghdr :=
  let msg := set_iov msghdr_zero iovs (to_size_t n_iovs) in
  n_fds ← defined (Int_val val_n_fds);
  if HAVE_FD_PASSING then
    if decide (n_fds > 0) then send_control msg n_fds val_fds else Returns msg
  else
    if decide (n_fds > 0) then lwt_unix_not_available "fd_passing" else Returns msg.

Definition wrapper_send_msg (fd n_iovs : Z) (iovs : list iovec)
    (val_n_fds val_fds : value) (w : OS) : outcome value * OS :=
  match send_msghdr n_iovs iovs val_n_fds val_fds with
  | Returns msg =>
      let '(r, w') := sendmsg fd msg 0 w in
      let ret := to_int r in
      if decide (ret = -1) then (uerror (errno w') "send_msg" Nothing, w')
      else (Returns (Val_int ret), w')
  | Raises e => (Raises e, w)
  | Undefined => (Undefined, w)
  | OutOfFuel => (OutOfFuel, w)
  end.
End Stubs.

(** ** A reference kernel: one connected socket with message boundaries *)

(** The environment against which end-to-end properties are stated: a
    process with its memory and one connected socket (datagram or
    sequenced-packet: each send is one message, each receive takes one).
    Limits of a real kernel (IOV_MAX, socket buffer sizes, the number of
    descriptors per message) and the renumbering of passed descriptors in
    the receiving process are left out. *)
Module Kernel.

Record cmsg : Type := { c_level : Z; c_type : Z; c_data : list Z }.
Record message : Type := { payload : list Z; ancillary : list cmsg }.

Record world : Type := {
  mem : Z -> Z;         (* the process's memory, byte by address *)
  sock : Z;             (* the descriptor of its socket *)
  rx : list message;    (* messages waiting to be received *)
  tx : list message;    (* messages sent, in order *)
  err : Z               (* errno *)
}.

Definition EBADF : Z := 9.
Definition EINVAL : Z := 22.

Definition set_err (w : world) (e : Z) : world :=
  {| mem := mem w; sock := sock w; rx := rx w; tx := tx w; err := e |}.

(** *** Scatter and gather *)

Definition read_bytes (m : Z -> Z) (base : Z) (n : nat) : list Z :=
  (fun i => m (base + Z.of_nat i)) <$> seq 0 n.

Definition write_bytes (m : Z -> Z) (base : Z) (bs : list Z) : Z -> Z :=
  fun a =>
    if decide (base <= a)
    then default (m a) (bs !! Z.to_nat (a - base))
    else m a.

Definition gather (m : Z -> Z) (iovs : list iovec) : list Z :=
  concat ((fun v => read_bytes m (iov_base v) (Z.to_nat (iov_len v))) <$> iovs).

Fixpoint scatter (m : Z -> Z) (iovs : list iovec) (data : list Z) : Z -> Z :=
  match iovs with
  | [] => m
  | v :: r =>
      let n := Z.to_nat (iov_len v) in
      scatter (write_bytes m (iov_base v) (take n data)) r (drop n data)
  end.

Definition capacity (iovs : list iovec) : nat :=
  sum_list ((fun v => Z.to_nat (iov_len v)) <$> iovs).

(** The first [msg_iovlen] entries of the array. *)
Definition vector (msg : msghdr) : list iovec :=
  take (Z.to_nat (msg_iovlen msg)) (msg_iov msg).

(** *** Control messages *)

(** Sending: walk the records of the control buffer; a record that does
    not lie within [controllen] fails the call ([None], EINVAL). *)
Fixpoint parse_cmsgs (fuel : nat) (ctl : list Z) (controllen c : Z) : option (list cmsg) :=
  match fuel with
  | O => None
  | S fuel' =>
      if decide (c + sizeof_cmsghdr > controllen) then Some []
      else
        len ← load_size_t ctl (c + off_cmsg_len);
        level ← load_int ctl (c + off_cmsg_level);
        ty ← load_int ctl (c + off_cmsg_type);
        if decide (len < sizeof_cmsghdr \/ len > controllen - c) then None
        else
          let data := take (Z.to_nat (len - sizeof_cmsghdr))
                           (drop (Z.to_nat (CMSG_DATA c)) ctl) in
          rest ← parse_cmsgs fuel' ctl controllen (c + CMSG_ALIGN len);
          Some ({| c_level := level; c_type := ty; c_data := data |} :: rest)
  end.

Definition parse_control (msg : msghdr) : option (list cmsg) :=
  match msg_control msg with
  | None => Some []
  | Some ctl => parse_cmsgs (S (length ctl)) ctl (msg_controllen msg) 0
  end.

(** Receiving: lay the records out in [space] bytes. A record that does
    not fit is cut (descriptors are never cut in the middle), and nothing
    is written once no header fits. *)
Definition encode_cmsg (space : Z) (r : cmsg) : list Z :=
  let room := space - sizeof_cmsghdr in
  let fit := if decide (c_level r = SOL_SOCKET /\ c_type r = SCM_RIGHTS)
             then sizeof_int * (room / sizeof_int) else room in
  let data := take (Z.to_nat fit) (c_data r) in
  let n := Z.of_nat (length data) in
  let body := le_bytes 8 (CMSG_LEN n) ++ le_bytes 4 (c_level r)
              ++ le_bytes 4 (c_type r) ++ data in
  let adv := Z.min (CMSG_SPACE n) space in
  body ++ replicate (Z.to_nat adv - length body) 0.

Fixpoint put_cmsgs (space : Z) (recs : list cmsg) : list Z :=
  match recs with
  | [] => []
  | r :: rest =>
      if decide (space < sizeof_cmsghdr) then []
      else
        let bytes := encode_cmsg space r in
        bytes ++ put_cmsgs (space - Z.of_nat (length bytes)) rest
  end.

(** *** The two calls *)

(** The state after a send of [msg] whose control data reads as [anc]:
    one more message in the queue. *)
Definition enqueue (w : world) (msg : msghdr) (anc : list cmsg) : world :=
  {| mem := mem w; sock := sock w; rx := rx w;
     tx := tx w ++ [{| payload := gather (mem w) (vector msg); ancillary := anc |}];
     err := err w |}.

Definition sys_sendmsg (fd : Z) (msg : msghdr) (flags : Z) (w : world) : Z * world :=
  if decide (fd = sock w) then
    match parse_control msg with
    | Some anc =>
        (Z.of_nat (length (gather (mem w) (vector msg))), enqueue w msg anc)
    | None => (-1, set_err w EINVAL)
    end
  else (-1, set_err w EBADF).

(** What a receive with header [msg] takes of the message [m]: the data
    that fits the vector, and the control records that fit the buffer. *)
Definition data_in (msg : msghdr) (m : message) : list Z :=
  take (capacity (vector msg)) (payload m).

Definition control_out (msg : msghdr) (m : message) : list Z :=
  match msg_control msg with
  | None => []
  | Some buf =>
      put_cmsgs (Z.min (msg_controllen msg) (Z.of_nat (length buf))) (ancillary m)
  end.

(** The header after the call: the records written at the start of the
    control buffer, [msg_controllen] their total size. *)
Definition deliver (msg : msghdr) (m : message) : msghdr :=
  let out := control_out msg m in
  set_control msg ((fun buf => out ++ drop (length out) buf) <$> msg_control msg)
              (Z.of_nat (length out)).

(** The state after the receive of [m]: its data scattered in memory,
    the rest of the queue left. *)
Definition dequeue (w : world) (msg : msghdr) (m : message) (rest : list message) : world :=
  {| mem := scatter (mem w) (vector msg) (data_in msg m); sock := sock w;
     rx := rest; tx := tx w; err := err w |}.

Definition sys_recvmsg (fd : Z) (msg : msghdr) (flags : Z) (w : world) : Z * msghdr * world :=
  if decide (fd = sock w) then
    match rx w with
    | [] => (0, set_control msg (msg_control msg) 0, w)   (* the peer has shut down *)
    | m :: rest =>
        (Z.of_nat (length (data_in msg m)), deliver msg m, dequeue w msg m rest)
    end
  else (-1, msg, set_err w EBADF).

#[global] Instance posix : Posix world := Build_Posix world err sys_recvmsg sys_sendmsg.

(** A process that has just opened its end of the socket. *)
Definition fresh (m : Z -> Z) (fd : Z) : world :=
  {| mem := m; sock := fd; rx := []; tx := []; err := 0 |}.

(** The other end: a process with memory [m] and descriptor [fd] that
    finds in its queue what [w] has sent. *)
Definition peer (w : world) (m : Z -> Z) (fd : Z) : world :=
  {| mem := m; sock := fd; rx := tx w; tx := []; err := 0 |}.

End Kernel.

(** ** Control messages as they lie in a buffer *)

(** One record that fits: the header with [cmsg_len = CMSG_LEN(n)] for
    [n] bytes of data, the data, and zero padding up to [CMSG_SPACE(n)]. *)
Definition cmsg_bytes (r : Kernel.cmsg) : list Z :=
  let n := Z.of_nat (length (Kernel.c_data r)) in
  le_bytes 8 (CMSG_LEN n) ++ le_bytes 4 (Kernel.c_level r) ++ le_bytes 4 (Kernel.c_type r)
  ++ Kernel.c_data r ++ replicate (Z.to_nat (CMSG_ALIGN n - n)) 0.

(** The number of bytes of data of a record. *)
Definition data_len (r : Kernel.cmsg) : Z := Z.of_nat (length (Kernel.c_data r)).

(** An array of [int]. *)
Definition int_array (ds : list Z) : list Z := concat (le_bytes 4 <$> ds).

(** The rights-transfer record that carries the descriptors [fds]. *)
Definition rights (fds : list Z) : Kernel.cmsg :=
  {| Kernel.c_level := SOL_SOCKET; Kernel.c_type := SCM_RIGHTS;
     Kernel.c_data := int_array fds |}.

(** The descriptors [fds] consed in front of the OCaml list [l]. *)
Definition cons_fds (fds : list Z) (l : value) : value :=
  foldr (fun d acc => Block [Val_int d; acc]) l fds.

(** The records of a buffer, one after the other. *)
Definition cmsgs_bytes (recs : list Kernel.cmsg) : list Z := concat (cmsg_bytes <$> recs).

Definition is_rights (r : Kernel.cmsg) : Prop :=
  Kernel.c_level r = SOL_SOCKET /\ Kernel.c_type r = SCM_RIGHTS.

(** A record whose level and type are values of an [int]. *)
Definition int_fields (r : Kernel.cmsg) : Prop :=
  INT_MIN <= Kernel.c_level r <= INT_MAX /\ INT_MIN <= Kernel.c_type r <= INT_MAX.

Definition is_int (d : Z) : Prop := INT_MIN <= d <= INT_MAX.

(** Receive vectors that do not overlap. *)
Definition apart (u v : iovec) : Prop :=
  iov_base u + Z.of_nat (Z.to_nat (iov_len u)) <= iov_base v \/
  iov_base v + Z.of_nat (Z.to_nat (iov_len v)) <= iov_base u.

Fixpoint disjoint_regions (iovs : list iovec) : Prop :=
  match iovs with
  | [] => True
  | v :: r => Forall (apart v) r /\ disjoint_regions r
  end.

(** ** Concrete inputs *)

(** A sender whose memory holds at each address the address modulo 256,
    two vectors to send from and three to receive into. *)
Definition ex_mem (a : Z) : Z := a mod 256.

Definition ex_iovs_s : list iovec :=
  [{| iov_base := 100; iov_len := 3 |}; {| iov_base := 200; iov_len := 2 |}].

Definition ex_iovs_r : list iovec :=
  [{| iov_base := 10; iov_len := 1 |}; {| iov_base := 20; iov_len := 1 |};
   {| iov_base := 30; iov_len := 3 |}].

Definition ex_descriptors : list buffer_descriptor :=
  [{| region_base := 1000; region_bytes := [1; 2; 3]; offset := 1; len := 2 |};
   {| region_base := 2000; region_bytes := []; offset := 0; len := 0 |}].

Definition ex_out : list iovec := replicate 3 {| iov_base := 0; iov_len := 0 |}.

Definition ex_fds : list Z := [5; 7].

(** A record of another type, and a receiver on descriptor 4 with one
    message of two bytes and the control records [anc] in its queue. *)
Definition ex_other : Kernel.cmsg :=
  {| Kernel.c_level := 1; Kernel.c_type := 2; Kernel.c_data := [9; 9; 9] |}.

Definition ex_receiver (anc : list Kernel.cmsg) : Kernel.world :=
  {| Kernel.mem := fun _ => 0; Kernel.sock := 4;
     Kernel.rx := [{| Kernel.payload := [1; 2]; Kernel.ancillary := anc |}];
     Kernel.tx := []; Kernel.err := 0 |}.

(** Three hundred descriptors, 0 to 299. *)
Definition ex_many_fds : list Z := Z.of_nat <$> seq 0 300.

(** ** Definitions for the further properties *)

(** The entry the builders write for a descriptor when nothing is assumed
    of its offset and length: the pointer and the [size_t] as the machine
    computes them. *)
Definition entry_of (d : buffer_descriptor) : iovec :=
  {| iov_base := ptr_add (region_base d) (offset d); iov_len := to_size_t (len d) |}.


(** Descriptors no caller should pass: a negative offset, a negative length. *)
Definition ex_unchecked : list buffer_descriptor :=
  [{| region_base := 1000; region_bytes := [1; 2; 3]; offset := -1; len := 2 |};
   {| region_base := 2000; region_bytes := [4]; offset := 0; len := -1 |}].

(** The bytes of a [struct cmsghdr] with the fields given. *)
Definition cmsghdr_bytes (len level ty : Z) : list Z :=
  le_bytes 8 len ++ le_bytes 4 level ++ le_bytes 4 ty.

(** A system whose [recvmsg] returns two bytes and leaves the control buffer
    [ctl] with [msg_controllen] set to [n]; its [sendmsg] takes nothing. *)
Definition scripted (ctl : list Z) (n : Z) : Posix unit :=
  Build_Posix unit (fun _ => 0)
    (fun _ msg _ w => (2, set_control msg (Some ctl) n, w))
    (fun _ _ _ w => (0, w)).

(** The bytes a descriptor designates: [len] bytes of its region, from
    [offset]. *)
Definition slice (d : buffer_descriptor) : list Z :=
  take (Z.to_nat (len d)) (drop (Z.to_nat (offset d)) (region_bytes d)).

(** The slice lies within the region. *)
Definition in_region (d : buffer_descriptor) : Prop :=
  offset d + len d <= Z.of_nat (length (region_bytes d)).

(** The memory [m] holds the region of [d] at its address. *)
Definition holds (m : Z -> Z) (d : buffer_descriptor) : Prop :=
  forall (i : nat) (b : Z),
    region_bytes d !! i = Some b -> m (region_base d + Z.of_nat i) = b.

(** A memory that holds the first region of [ex_descriptors] at its address. *)
Definition ex_heap : Z -> Z := Kernel.write_bytes (fun _ => 0) 1000 [1; 2; 3].

(** ** Tactics *)

(** Close a goal about closed terms by evaluating them. *)
Ltac by_computation :=
  vm_compute; first [reflexivity | discriminate | lia | done | (intros; discriminate)].

(** * Properties *)

(** ** Machine integers *)

Lemma to_int_small (z : Z) : INT_MIN <= z <= INT_MAX -> to_int z = z.
Proof.
  unfold to_int, INT_MIN, INT_MAX. intros Hz.
  rewrite Z.mod_small; lia.
Qed.

Lemma to_size_t_small (z : Z) : 0 <= z <= SIZE_MAX -> to_size_t z = z.
Proof. unfold to_size_t, SIZE_MAX. intros Hz. apply Z.mod_small. lia. Qed.

Lemma ptr_add_small (p n : Z) : 0 <= p + n <= SIZE_MAX -> ptr_add p n = p + n.
Proof. unfold ptr_add, SIZE_MAX. intros Hz. apply Z.mod_small. lia. Qed.

(** ** The vector builders *)

Section Builders.
Implicit Types (ds : list buffer_descriptor) (out pre rest : list iovec).

(** The loops as the C text has them: while [Is_block(list)], take
    [Field(list, 0)], store its entry, go on with [Field(list, 1)]. *)
Lemma store_iovs_loop (iovs : list iovec) (p : nat) (l : value) :
  store_iovs iovs p l
  = if Is_block l
    then x ← Field l 0; e ← iov_of_string_triple x; iovs' ← store_iov iovs p e;
         tl ← Field l 1; store_iovs iovs' (S p) tl
    else Some iovs.
Proof.
  destruct l as [n|[|x [|tl fs]]|a bs|d]; try reflexivity.
  cbn [store_iovs Is_block Field lookup list_lookup mbind option_bind].
  destruct (iov_of_string_triple x) as [e|]; [|done]. cbn [mbind option_bind].
  by destruct (store_iov iovs p e).
Qed.

Lemma bytes_store_iovs_loop (iovs : list iovec) (p : nat) (l : value) :
  bytes_store_iovs iovs p l
  = if Is_block l
    then x ← Field l 0; e ← iov_of_bigarray_triple x; iovs' ← store_iov iovs p e;
         tl ← Field l 1; bytes_store_iovs iovs' (S p) tl
    else Some iovs.
Proof.
  destruct l as [n|[|x [|tl fs]]|a bs|d]; try reflexivity.
  cbn [bytes_store_iovs Is_block Field lookup list_lookup mbind option_bind].
  destruct (iov_of_bigarray_triple x) as [e|]; [|done]. cbn [mbind option_bind].
  by destruct (store_iov iovs p e).
Qed.

Lemma store_iov_app pre rest e0 e :
  store_iov (pre ++ e0 :: rest) (length pre) e = Some ((pre ++ [e]) ++ rest).
Proof.
  unfold store_iov. rewrite decide_True.
  - f_equal. rewrite <- (Nat.add_0_r (length pre)), insert_app_r.
    simpl. by rewrite <- app_assoc.
  - rewrite length_app. simpl. lia.
Qed.

Lemma iov_of_string_triple_managed d :
  valid_descriptor d -> iov_of_string_triple (managed_val d) = Some (lower d).
Proof.
  intros (Hb & Ho & Hl & Hbo). unfold iov_of_string_triple, lower. simpl.
  rewrite ptr_add_small, to_size_t_small by lia. done.
Qed.

Lemma iov_of_bigarray_triple_external d :
  valid_descriptor d -> iov_of_bigarray_triple (external_val d) = Some (lower d).
Proof.
  intros (Hb & Ho & Hl & Hbo). unfold iov_of_bigarray_triple, lower. simpl.
  rewrite ptr_add_small, to_size_t_small by lia. done.
Qed.

Lemma store_iovs_from ds : forall pre rest,
  Forall valid_descriptor ds -> (length ds <= length rest)%nat ->
  store_iovs (pre ++ rest) (length pre) (caml_list (managed_val <$> ds))
  = Some (pre ++ (lower <$> ds) ++ drop (length ds) rest).
Proof.
  induction ds as [|d ds IH]; intros pre rest Hv Hlen.
  - done.
  - destruct rest as [|e0 rest]; [simpl in Hlen; lia|].
    inversion Hv as [|? ? Hd Hds]; subst.
    cbn [fmap list_fmap caml_list store_iovs].
    rewrite (iov_of_string_triple_managed d Hd). cbn [mbind option_bind].
    rewrite store_iov_app. cbn [mbind option_bind].
    replace (S (length pre)) with (length (pre ++ [lower d]))
      by (rewrite length_app; simpl; lia).
    rewrite IH by (simpl in Hlen; auto with lia).
    by rewrite <- app_assoc.
Qed.

Lemma bytes_store_iovs_from ds : forall pre rest,
  Forall valid_descriptor ds -> (length ds <= length rest)%nat ->
  bytes_store_iovs (pre ++ rest) (length pre) (caml_list (external_val <$> ds))
  = Some (pre ++ (lower <$> ds) ++ drop (length ds) rest).
Proof.
  induction ds as [|d ds IH]; intros pre rest Hv Hlen.
  - done.
  - destruct rest as [|e0 rest]; [simpl in Hlen; lia|].
    inversion Hv as [|? ? Hd Hds]; subst.
    cbn [fmap list_fmap caml_list bytes_store_iovs].
    rewrite (iov_of_bigarray_triple_external d Hd). cbn [mbind option_bind].
    rewrite store_iov_app. cbn [mbind option_bind].
    replace (S (length pre)) with (length (pre ++ [lower d]))
      by (rewrite length_app; simpl; lia).
    rewrite IH by (simpl in Hlen; auto with lia).
    by rewrite <- app_assoc.
Qed.
End Builders.

(** C1. Given [N] valid descriptors of either kind and an output array with
    room for them, each builder overwrites entries [0 .. N-1] of the array
    with the descriptors' [{base + offset, length}], in order, and leaves the
    rest of the array as it was; the bytes of the regions play no part. *)
Theorem build_vector_entries (ds : list buffer_descriptor) (out : list iovec) :
  Forall valid_descriptor ds ->
  (length ds <= length out)%nat ->
  store_iovs out 0 (caml_list (managed_val <$> ds))
    = Some ((lower <$> ds) ++ drop (length ds) out) /\
  bytes_store_iovs out 0 (caml_list (external_val <$> ds))
    = Some ((lower <$> ds) ++ drop (length ds) out).
Proof.
  intros Hv Hlen. split.
  - apply (store_iovs_from ds [] out Hv Hlen).
  - apply (bytes_store_iovs_from ds [] out Hv Hlen).
Qed.

(** ** Exceptions and the build without descriptor passing *)

Section Failures.
Context {OS : Type} `{!Posix OS}.
Implicit Types (w : OS) (iovs : list iovec).

Lemma Int_val_Val_int (n : Z) : INT_MIN <= n <= INT_MAX -> Int_val (Val_int n) = Some n.
Proof. intros Hn. unfold Int_val, Val_int. simpl. by rewrite to_int_small. Qed.

(** None of the loops after [recvmsg] raises an exception. *)
Lemma prepend_fds_no_raise ctl fds k : forall l e, prepend_fds ctl fds k l <> Raises e.
Proof.
  induction k as [|i IH]; intros l e; simpl; [done|].
  destruct (load_int ctl _); simpl; [apply IH | done].
Qed.

Lemma scan_cmsgs_no_raise fuel msg ctl : forall cm l e,
  scan_cmsgs fuel msg ctl cm l <> Raises e.
Proof.
  induction fuel as [|fuel IH]; intros [c|] l e; simpl; try done.
  destruct (load_int ctl (c + off_cmsg_level)) as [level|]; simpl; [|done].
  assert (Hcollect : collect_rights ctl c l <> Raises e).
  { unfold collect_rights. destruct (load_size_t ctl _); simpl; [|done].
    apply prepend_fds_no_raise. }
  assert (Hnext : (nxt ← defined (CMSG_NXTHDR msg ctl c); scan_cmsgs fuel msg ctl nxt l)
                  <> Raises e).
  { destruct (CMSG_NXTHDR msg ctl c); simpl; [apply IH | done]. }
  destruct (decide (level = SOL_SOCKET)); simpl; [|done].
  destruct (load_int ctl (c + off_cmsg_type)) as [ty|]; simpl; [|done].
  by destruct (bool_decide (ty = SCM_RIGHTS)).
Qed.

Lemma recv_fds_no_raise have msg e : recv_fds have msg <> Raises e.
Proof.
  unfold recv_fds. destruct have; [apply scan_cmsgs_no_raise | done].
Qed.
End Failures.

(** C7. Without [HAVE_FD_PASSING], [wrapper_recv_msg] makes its one call
    to [recvmsg] with the caller's vector and no control buffer, and returns
    the byte count with the empty descriptor list, whatever the kernel left
    in the message header. *)
Theorem recv_without_fd_passing {OS : Type} `{!Posix OS}
    (fd n_iovs : Z) (iovs : list iovec) (w w' : OS) (r : Z) (msg : msghdr) :
  recvmsg fd (set_iov msghdr_zero iovs (to_size_t n_iovs)) 0 w = (r, msg, w') ->
  0 <= r <= INT_MAX ->
  wrapper_recv_msg false fd n_iovs iovs w
  = (Returns (Block [Val_int r; Val_int 0]), w').
Proof.
  intros Hcall Hr. unfold wrapper_recv_msg, recv_msghdr. rewrite Hcall.
  rewrite to_int_small by (unfold INT_MIN, INT_MAX in *; lia).
  rewrite decide_False by lia. done.
Qed.

(** C5. Without [HAVE_FD_PASSING], a send with a non-empty descriptor list
    raises [Not_available] and leaves the system as it was, for every
    system: [sendmsg] is not reached. With the empty list the send is the
    plain call, and its count is returned. *)
Theorem send_without_fd_passing {OS : Type} `{!Posix OS}
    (fd n_iovs : Z) (iovs : list iovec) (w : OS) :
  (forall fds : list Z,
     fds <> [] -> Z.of_nat (length fds) <= INT_MAX ->
     wrapper_send_msg false fd n_iovs iovs
       (Val_int (Z.of_nat (length fds))) (caml_list (Val_int <$> fds)) w
     = (Raises (Not_available "fd_passing"), w)) /\
  (forall (r : Z) (w' : OS),
     sendmsg fd (set_iov msghdr_zero iovs (to_size_t n_iovs)) 0 w = (r, w') ->
     0 <= r <= INT_MAX ->
     wrapper_send_msg false fd n_iovs iovs (Val_int 0) (caml_list []) w
     = (Returns (Val_int r), w')).
Proof.
  split.
  - intros fds Hne Hlen. unfold wrapper_send_msg, send_msghdr.
    rewrite Int_val_Val_int by (unfold INT_MIN, INT_MAX in *; lia).
    cbn [mbind outcome_bind defined].
    destruct fds as [|d fds]; [done|].
    rewrite decide_True by (simpl; lia). done.
  - intros r w' Hcall Hr. unfold wrapper_send_msg, send_msghdr.
    rewrite Int_val_Val_int by (unfold INT_MIN, INT_MAX; lia).
    cbn [mbind outcome_bind defined].
    rewrite decide_False by lia. rewrite Hcall.
    rewrite to_int_small by (unfold INT_MIN, INT_MAX in *; lia).
    rewrite decide_False by lia. done.
Qed.

(** C6, as the code has it. The exception raised when the call returns -1
    is [Unix_error] with [errno] and the name of the stub, ["recv_msg"] or
    ["send_msg"]; no other return value raises one. The system is left as the
    single call left it, and a receive of 0 bytes returns the pair of 0 and
    the descriptor list. *)
Theorem io_failure_iff {OS : Type} `{!Posix OS}
    (have : bool) (fd n_iovs : Z) (iovs : list iovec) (w : OS) :
  (forall (r : Z) (msg : msghdr) (w' : OS),
     recvmsg fd (recv_msghdr have n_iovs iovs) 0 w = (r, msg, w') ->
     -1 <= r <= INT_MAX ->
     snd (wrapper_recv_msg have fd n_iovs iovs w) = w' /\
     (forall e, fst (wrapper_recv_msg have fd n_iovs iovs w) = Raises e <->
                r = -1 /\ e = Unix_error (errno w') "recv_msg" EmptyString) /\
     (r = 0 -> fst (wrapper_recv_msg have fd n_iovs iovs w)
               = (l ← recv_fds have msg; Returns (Block [Val_int 0; l])))) /\
  (forall (val_n_fds val_fds : value) (hdr : msghdr) (r : Z) (w' : OS),
     send_msghdr have n_iovs iovs val_n_fds val_fds = Returns hdr ->
     sendmsg fd hdr 0 w = (r, w') ->
     -1 <= r <= INT_MAX ->
     snd (wrapper_send_msg have fd n_iovs iovs val_n_fds val_fds w) = w' /\
     (forall e, fst (wrapper_send_msg have fd n_iovs iovs val_n_fds val_fds w) = Raises e <->
                r = -1 /\ e = Unix_error (errno w') "send_msg" EmptyString)).
Proof.
  split.
  - intros r msg w' Hcall Hr. unfold wrapper_recv_msg. rewrite Hcall.
    rewrite to_int_small by (unfold INT_MIN, INT_MAX in *; lia).
    destruct (decide (r = -1)) as [->|Hne]; simpl.
    + split; [done|]. split; [|done].
      intros e. unfold uerror. split; [intros [= <-]; done | intros [_ ->]; done].
    + split; [done|]. split.
      * intros e. split; [|intros [? _]; done].
        intros Hraise. exfalso.
        destruct (recv_fds have msg) as [l| e' | |] eqn:Hfds; simpl in Hraise; try done.
        by apply recv_fds_no_raise in Hfds.
      * by intros ->.
  - intros val_n_fds val_fds hdr r w' Hhdr Hcall Hr. unfold wrapper_send_msg.
    rewrite Hhdr, Hcall.
    rewrite to_int_small by (unfold INT_MIN, INT_MAX in *; lia).
    destruct (decide (r = -1)) as [->|Hne]; simpl.
    + split; [done|]. intros e. unfold uerror.
      split; [intros [= <-]; done | intros [_ ->]; done].
    + split; [done|]. intros e. split; [done | intros [? _]; done].
Qed.

(** C6, as the claim words it, fails: on a descriptor that is not the
    socket, [recvmsg] and [sendmsg] return -1 and the exceptions raised do
    not carry the names ["receive_message"] and ["send_message"]. *)
Lemma io_failure_name_counterexample :
  let w := Kernel.fresh (fun _ => 0) 3 in
  fst (fst (recvmsg 7 (recv_msghdr true 0 []) 0 w)) = -1 /\
  fst (wrapper_recv_msg true 7 0 [] w) = Raises (Unix_error Kernel.EBADF "recv_msg" EmptyString) /\
  (forall code arg,
     fst (wrapper_recv_msg true 7 0 [] w) <> Raises (Unix_error code "receive_message" arg)) /\
  fst (sendmsg 7 (set_iov msghdr_zero [] 0) 0 w) = -1 /\
  fst (wrapper_send_msg true 7 0 [] (Val_int 0) (caml_list []) w)
  = Raises (Unix_error Kernel.EBADF "send_msg" EmptyString) /\
  (forall code arg,
     fst (wrapper_send_msg true 7 0 [] (Val_int 0) (caml_list []) w)
     <> Raises (Unix_error code "send_message" arg)).
Proof.
  cbv zeta. repeat split; try reflexivity; intros code arg; vm_compute; discriminate.
Qed.

(** ** Bytes in a buffer *)

Lemma length_le_bytes (n : nat) : forall v, length (le_bytes n v) = n.
Proof. induction n as [|n IH]; intros v; simpl; [done | by rewrite IH]. Qed.

Lemma le_value_le_bytes (n : nat) : forall v,
  le_value (le_bytes n v) = v mod 2 ^ (8 * Z.of_nat n).
Proof.
  induction n as [|n IH]; intros v.
  - simpl. by rewrite Z.mod_1_r.
  - cbn [le_bytes le_value]. rewrite IH.
    replace (8 * Z.of_nat (S n)) with (8 + 8 * Z.of_nat n) by lia.
    rewrite Z.pow_add_r by lia. change (2 ^ 8) with 256.
    rewrite Z.rem_mul_r by lia. done.
Qed.

Lemma load_int_le_bytes_value (v : Z) :
  INT_MIN <= v <= INT_MAX -> to_int (le_value (le_bytes 4 v)) = v.
Proof.
  intros Hv. rewrite le_value_le_bytes. unfold to_int, INT_MIN, INT_MAX in *.
  change (2 ^ (8 * Z.of_nat 4)) with (2 ^ 32).
  rewrite Zplus_mod_idemp_l. rewrite Z.mod_small; lia.
Qed.

Lemma load_app (n : nat) (pre bs post : list Z) :
  length bs = n ->
  load n (pre ++ bs ++ post) (Z.of_nat (length pre)) = Some (le_value bs).
Proof.
  intros Hn. unfold load. rewrite decide_True.
  - rewrite Nat2Z.id, drop_app_length, take_app_length' by done. done.
  - unfold in_bounds. rewrite !length_app. lia.
Qed.

Lemma store_app (n : nat) (pre old post : list Z) (v : Z) :
  length old = n ->
  store n (pre ++ old ++ post) (Z.of_nat (length pre)) v
  = Some (pre ++ le_bytes n v ++ post).
Proof.
  intros Hn. unfold store. rewrite decide_True.
  - rewrite Nat2Z.id, take_app_length. do 3 f_equal.
    rewrite drop_app_add', drop_app_length' by done. done.
  - unfold in_bounds. rewrite !length_app. lia.
Qed.

Lemma load_in_bounds (n : nat) (buf : list Z) (off v : Z) :
  load n buf off = Some v -> 0 <= off /\ off + Z.of_nat n <= Z.of_nat (length buf).
Proof. unfold load. case_decide; [done | discriminate]. Qed.

(** ** The control-message macros *)

Lemma CMSG_ALIGN_eq (len : Z) :
  0 <= len <= 2 ^ 63 -> CMSG_ALIGN len = 8 * ((len + 7) / 8).
Proof.
  intros Hlen. unfold CMSG_ALIGN.
  change (8 - 1) with (Z.ones 3). rewrite <- Z.ldiff_land.
  rewrite Z.ldiff_ones_r by lia.
  rewrite Z.shiftl_mul_pow2, Z.shiftr_div_pow2 by lia.
  change (2 ^ 3) with 8. replace (len + 8 - 1) with (len + 7) by lia.
  unfold to_size_t. rewrite Z.mod_small; [lia|].
  pose proof (Z.mul_div_le (len + 7) 8). pose proof (Z.div_pos (len + 7) 8). lia.
Qed.

Lemma CMSG_ALIGN_bounds (len : Z) :
  0 <= len <= 2 ^ 63 -> len <= CMSG_ALIGN len < len + 8 /\ CMSG_ALIGN len mod 8 = 0.
Proof.
  intros Hlen. rewrite CMSG_ALIGN_eq by done.
  pose proof (Z.div_mod (len + 7) 8). pose proof (Z.mod_pos_bound (len + 7) 8).
  split; [lia|]. rewrite Z.mul_comm. apply Z_mod_mult.
Qed.

Lemma ptr_off_small (z : Z) : 0 <= z <= 2 ^ 62 -> ptr_off z = Some z.
Proof. intros Hz. unfold ptr_off, PTRDIFF_MAX. by rewrite decide_True by lia. Qed.

Lemma CMSG_ALIGN_nonneg (len : Z) : 0 <= CMSG_ALIGN len.
Proof. unfold CMSG_ALIGN, to_size_t. apply Z.mod_pos_bound. lia. Qed.

Lemma CMSG_LEN_eq (len : Z) : 0 <= len <= 2 ^ 63 -> CMSG_LEN len = sizeof_cmsghdr + len.
Proof.
  intros Hlen. unfold CMSG_LEN. change (CMSG_ALIGN sizeof_cmsghdr) with 16.
  unfold sizeof_cmsghdr. apply to_size_t_small. unfold SIZE_MAX. lia.
Qed.

Lemma CMSG_SPACE_eq (len : Z) :
  0 <= len <= 2 ^ 62 -> CMSG_SPACE len = sizeof_cmsghdr + CMSG_ALIGN len.
Proof.
  intros Hlen. unfold CMSG_SPACE. change (CMSG_ALIGN sizeof_cmsghdr) with 16.
  pose proof (CMSG_ALIGN_bounds len). unfold sizeof_cmsghdr.
  rewrite to_size_t_small; unfold SIZE_MAX; lia.
Qed.

(** ** Control messages in a buffer *)

Section Layout.
Import Kernel.
Implicit Types (r : cmsg) (before after buf : list Z) (fds : list Z).

Lemma load_at (n : nat) buf (pre bs post : list Z) (off : Z) :
  buf = pre ++ bs ++ post -> off = Z.of_nat (length pre) -> length bs = n ->
  load n buf off = Some (le_value bs).
Proof. intros -> -> Hn. by apply load_app. Qed.

Lemma store_at (n : nat) buf (pre old post : list Z) (off v : Z) :
  buf = pre ++ old ++ post -> off = Z.of_nat (length pre) -> length old = n ->
  store n buf off v = Some (pre ++ le_bytes n v ++ post).
Proof. intros -> -> Hn. by apply store_app. Qed.

Lemma load_int_at buf (pre post : list Z) (off d : Z) :
  buf = pre ++ le_bytes 4 d ++ post -> off = Z.of_nat (length pre) -> is_int d ->
  load_int buf off = Some d.
Proof.
  intros Hbuf Hoff Hd. unfold load_int.
  rewrite (load_at 4 buf pre (le_bytes 4 d) post off Hbuf Hoff (length_le_bytes 4 d)).
  cbn [fmap option_fmap option_map]. f_equal. by apply load_int_le_bytes_value.
Qed.

Lemma length_int_array fds : length (int_array fds) = (4 * length fds)%nat.
Proof.
  induction fds as [|d fds IH]; [done|].
  change (int_array (d :: fds)) with (le_bytes 4 d ++ int_array fds).
  rewrite length_app, length_le_bytes, IH. simpl. lia.
Qed.

Lemma int_array_app fds1 fds2 : int_array (fds1 ++ fds2) = int_array fds1 ++ int_array fds2.
Proof. unfold int_array. by rewrite fmap_app, concat_app. Qed.

Lemma length_cmsg_bytes r :
  data_len r <= 2 ^ 62 -> Z.of_nat (length (cmsg_bytes r)) = CMSG_SPACE (data_len r).
Proof.
  unfold data_len. intros Hn. unfold cmsg_bytes.
  rewrite !length_app, !length_le_bytes, length_replicate.
  rewrite CMSG_SPACE_eq by lia.
  pose proof (CMSG_ALIGN_bounds (Z.of_nat (length (c_data r)))).
  unfold sizeof_cmsghdr. lia.
Qed.

Lemma cmsg_len_at before r after :
  data_len r <= 2 ^ 62 ->
  load_size_t (before ++ cmsg_bytes r ++ after) (Z.of_nat (length before) + off_cmsg_len)
  = Some (sizeof_cmsghdr + data_len r).
Proof.
  unfold data_len. intros Hn. unfold load_size_t, cmsg_bytes, off_cmsg_len.
  erewrite (load_at 8 _ before (le_bytes 8 _)); [| by rewrite <- !app_assoc | lia
                                                  | by rewrite length_le_bytes].
  rewrite le_value_le_bytes, CMSG_LEN_eq by lia.
  unfold sizeof_cmsghdr. rewrite Z.mod_small; [done|].
  change (2 ^ (8 * Z.of_nat 8)) with (2 ^ 64). lia.
Qed.

Lemma cmsg_level_at before r after :
  int_fields r ->
  load_int (before ++ cmsg_bytes r ++ after) (Z.of_nat (length before) + off_cmsg_level)
  = Some (c_level r).
Proof.
  intros [Hl _]. unfold cmsg_bytes, off_cmsg_level.
  eapply (load_int_at _ (before ++ le_bytes 8 _)); [by rewrite <- !app_assoc | | done].
  rewrite length_app, length_le_bytes. lia.
Qed.

Lemma cmsg_type_at before r after :
  int_fields r ->
  load_int (before ++ cmsg_bytes r ++ after) (Z.of_nat (length before) + off_cmsg_type)
  = Some (c_type r).
Proof.
  intros [_ Ht]. unfold cmsg_bytes, off_cmsg_type.
  eapply (load_int_at _ (before ++ le_bytes 8 _ ++ le_bytes 4 _));
    [by rewrite <- !app_assoc | | done].
  rewrite !length_app, !length_le_bytes. lia.
Qed.

(** The [i]-th [int] of the data of a rights record. *)
Lemma rights_fd_at before fds after (i : nat) (d : Z) :
  fds !! i = Some d -> is_int d ->
  load_int (before ++ cmsg_bytes (rights fds) ++ after)
           (CMSG_DATA (Z.of_nat (length before)) + sizeof_int * Z.of_nat i)
  = Some d.
Proof.
  intros Hi Hd. unfold cmsg_bytes, rights, CMSG_DATA, sizeof_cmsghdr, sizeof_int.
  cbn [c_level c_type c_data].
  rewrite <- (take_drop_middle fds i d Hi) at 2. rewrite int_array_app.
  change (int_array (d :: drop (S i) fds))
    with (le_bytes 4 d ++ int_array (drop (S i) fds)).
  eapply (load_int_at _ (before ++ le_bytes 8 _ ++ le_bytes 4 _ ++ le_bytes 4 _
                           ++ int_array (take i fds)));
    [by rewrite <- !app_assoc | | done].
  rewrite !length_app, !length_le_bytes, length_int_array, length_take.
  apply lookup_lt_Some in Hi. lia.
Qed.
End Layout.

(** ** Descriptors received *)

Section Received.
Import Kernel.
Implicit Types (r : cmsg) (recs pre : list cmsg) (before after buf fds : list Z) (l : value).

Lemma caml_list_cons_fds fds : caml_list (Val_int <$> fds) = cons_fds fds (Val_int 0).
Proof.
  induction fds as [|d fds IH]; [done|].
  change (caml_list (Val_int <$> d :: fds))
    with (Block [Val_int d; caml_list (Val_int <$> fds)]).
  by rewrite IH.
Qed.

Lemma cons_fds_snoc fds d l : cons_fds (fds ++ [d]) l = cons_fds fds (Block [Val_int d; l]).
Proof. unfold cons_fds. by rewrite foldr_app. Qed.

Lemma CMSG_ALIGN_header (n : Z) :
  0 <= n <= 2 ^ 62 -> CMSG_ALIGN (sizeof_cmsghdr + n) = sizeof_cmsghdr + CMSG_ALIGN n.
Proof.
  intros Hn. unfold sizeof_cmsghdr. rewrite !CMSG_ALIGN_eq by lia.
  replace (16 + n + 7) with (n + 7 + 2 * 8) by lia. rewrite Z_div_plus_full by lia. lia.
Qed.

Lemma data_len_le_length r : sizeof_cmsghdr + data_len r <= Z.of_nat (length (cmsg_bytes r)).
Proof.
  unfold data_len, cmsg_bytes, sizeof_cmsghdr.
  rewrite !length_app, !length_le_bytes. lia.
Qed.

Lemma length_cmsgs_bytes_ge recs : (length recs <= length (cmsgs_bytes recs))%nat.
Proof.
  induction recs as [|r recs IH]; [done|].
  change (cmsgs_bytes (r :: recs)) with (cmsg_bytes r ++ cmsgs_bytes recs).
  rewrite length_app. pose proof (data_len_le_length r).
  unfold sizeof_cmsghdr, data_len in *. simpl. lia.
Qed.

(** The backward loop over the array of a rights record conses its
    first [k] descriptors, in their order, in front of [l]. *)
Lemma prepend_fds_rights before fds after (k : nat) : forall l,
  Forall is_int fds -> (k <= length fds)%nat ->
  prepend_fds (before ++ cmsg_bytes (rights fds) ++ after)
              (CMSG_DATA (Z.of_nat (length before))) k l
  = Returns (cons_fds (take k fds) l).
Proof.
  intros l Hint. revert l. induction k as [|i IH]; intros l Hk.
  - by rewrite take_0.
  - destruct (lookup_lt_is_Some_2 fds i) as [d Hd]; [lia|].
    cbn [prepend_fds].
    rewrite (rights_fd_at before fds after i d Hd)
      by (eapply Forall_lookup_1; eauto).
    cbn [defined mbind outcome_bind]. rewrite IH by lia.
    by rewrite (take_S_r fds i d Hd), cons_fds_snoc.
Qed.

Lemma collect_rights_rights before fds after l :
  Forall is_int fds -> Z.of_nat (length fds) <= INT_MAX ->
  collect_rights (before ++ cmsg_bytes (rights fds) ++ after) (Z.of_nat (length before)) l
  = Returns (cons_fds fds l).
Proof.
  intros Hint Hlen. unfold collect_rights, INT_MAX in *.
  assert (Hdl : data_len (rights fds) = 4 * Z.of_nat (length fds)).
  { unfold data_len, rights. cbn [c_data]. rewrite length_int_array. lia. }
  rewrite cmsg_len_at by lia. cbn [defined mbind outcome_bind].
  rewrite Hdl. change (CMSG_LEN 0) with 16. unfold sizeof_cmsghdr, sizeof_int.
  replace (16 + 4 * Z.of_nat (length fds) - 16) with (Z.of_nat (length fds) * 4) by lia.
  rewrite to_size_t_small by (unfold SIZE_MAX; lia).
  rewrite Z_div_mult by lia.
  rewrite to_int_small by (unfold INT_MIN, INT_MAX; lia).
  rewrite Nat2Z.id, prepend_fds_rights by done. by rewrite firstn_all.
Qed.

(** From a record to the next one. *)
Lemma CMSG_NXTHDR_next msg before r r' after :
  Z.of_nat (length (before ++ cmsg_bytes r ++ cmsg_bytes r')) <= msg_controllen msg <= 2 ^ 62 ->
  CMSG_NXTHDR msg (before ++ cmsg_bytes r ++ cmsg_bytes r' ++ after)
              (Z.of_nat (length before))
  = Some (Some (Z.of_nat (length (before ++ cmsg_bytes r)))).
Proof.
  intros Hlen. rewrite !length_app in Hlen.
  pose proof (data_len_le_length r) as Hr. pose proof (data_len_le_length r') as Hr'.
  assert (0 <= data_len r) by (unfold data_len; lia).
  assert (0 <= data_len r') by (unfold data_len; lia).
  unfold sizeof_cmsghdr in *.
  pose proof (length_cmsg_bytes r) as Lr. pose proof (length_cmsg_bytes r') as Lr'.
  rewrite CMSG_SPACE_eq in Lr, Lr' by lia. unfold sizeof_cmsghdr in *.
  pose proof (CMSG_ALIGN_header (data_len r)) as Ar.
  pose proof (CMSG_ALIGN_header (data_len r')) as Ar'.
  unfold sizeof_cmsghdr in Ar, Ar'.
  unfold CMSG_NXTHDR.
  rewrite cmsg_len_at by lia. cbn [mbind option_bind]. unfold sizeof_cmsghdr.
  rewrite decide_False by lia.
  rewrite Ar by lia.
  rewrite ptr_off_small by lia. cbn [mbind option_bind].
  rewrite decide_False by lia.
  replace (Z.of_nat (length before) + (16 + CMSG_ALIGN (data_len r)) + off_cmsg_len)
    with (Z.of_nat (length (before ++ cmsg_bytes r)) + off_cmsg_len)
    by (rewrite length_app; unfold off_cmsg_len; lia).
  rewrite (app_assoc before (cmsg_bytes r)).
  rewrite cmsg_len_at by lia. cbn [mbind option_bind]. unfold sizeof_cmsghdr.
  rewrite Ar' by lia.
  rewrite ptr_off_small by (rewrite ?length_app; lia). cbn [mbind option_bind].
  rewrite decide_False by lia.
  do 2 f_equal. rewrite length_app. lia.
Qed.

(** The scan passes the records that are not of rights type and stops
    at the first that is. *)
Lemma scan_cmsgs_first_rights msg pre : forall before fuel fds after l,
  Forall (fun r => ~ is_rights r /\ int_fields r) pre ->
  Z.of_nat (length (before ++ cmsgs_bytes pre ++ cmsg_bytes (rights fds)))
    <= msg_controllen msg <= 2 ^ 62 ->
  (length pre < fuel)%nat ->
  scan_cmsgs fuel msg (before ++ cmsgs_bytes pre ++ cmsg_bytes (rights fds) ++ after)
             (Some (Z.of_nat (length before))) l
  = collect_rights (before ++ cmsgs_bytes pre ++ cmsg_bytes (rights fds) ++ after)
                   (Z.of_nat (length (before ++ cmsgs_bytes pre))) l.
Proof.
  induction pre as [|r pre IH]; intros before fuel fds after l Hpre Hlen Hfuel.
  - destruct fuel as [|fuel]; [simpl in Hfuel; lia|].
    change (cmsgs_bytes []) with (@nil Z). cbn [app]. rewrite app_nil_r.
    cbn [scan_cmsgs].
    rewrite cmsg_level_at by (by vm_compute).
    cbn [defined mbind outcome_bind rights c_level].
    rewrite decide_True by done.
    rewrite cmsg_type_at by (by vm_compute).
    cbn [defined mbind outcome_bind rights c_type].
    by rewrite bool_decide_eq_true_2.
  - destruct fuel as [|fuel]; [simpl in Hfuel; lia|].
    inversion Hpre as [|? ? [Hnr Hint] Hpre']; subst.
    change (cmsgs_bytes (r :: pre)) with (cmsg_bytes r ++ cmsgs_bytes pre) in *.
    rewrite <- !app_assoc in *.
    cbn [scan_cmsgs].
    rewrite cmsg_level_at by done. cbn [defined mbind outcome_bind].
    assert (Hnot : (if decide (c_level r = SOL_SOCKET)
              then ty ← defined (load_int
                      (before ++ cmsg_bytes r ++ cmsgs_bytes pre
                         ++ cmsg_bytes (rights fds) ++ after)
                      (Z.of_nat (length before) + off_cmsg_type));
                   Returns (bool_decide (ty = SCM_RIGHTS))
              else Returns false) = Returns false).
    { case_decide as Hl; [|done].
      rewrite cmsg_type_at by done. cbn [defined mbind outcome_bind].
      rewrite bool_decide_eq_false_2; [done|]. intros Ht. by apply Hnr. }
    rewrite Hnot. cbn [mbind outcome_bind].
    assert (Hnext : CMSG_NXTHDR msg
              (before ++ cmsg_bytes r ++ cmsgs_bytes pre ++ cmsg_bytes (rights fds) ++ after)
              (Z.of_nat (length before))
            = Some (Some (Z.of_nat (length (before ++ cmsg_bytes r))))).
    { destruct pre as [|r' pre'].
      - change (cmsgs_bytes []) with (@nil Z) in *. cbn [app] in *.
        apply CMSG_NXTHDR_next. rewrite !length_app in *. lia.
      - change (cmsgs_bytes (r' :: pre')) with (cmsg_bytes r' ++ cmsgs_bytes pre') in *.
        rewrite <- !app_assoc.
        apply CMSG_NXTHDR_next. rewrite !length_app in *. lia. }
    rewrite Hnext. cbn [defined mbind outcome_bind].
    rewrite (app_assoc before (cmsg_bytes r)).
    rewrite IH; [ | done | rewrite <- !app_assoc; done | simpl in Hfuel; lia].
    by rewrite <- !app_assoc.
Qed.
End Received.

Section ReceivedList.
Import Kernel.
Implicit Types (pre : list cmsg) (fds after : list Z).

Lemma recv_msghdr_controllen n_iovs iovs :
  msg_controllen (recv_msghdr true n_iovs iovs) = 1040.
Proof. reflexivity. Qed.

(** The list built from a control buffer whose first rights record
    carries [fds]. *)
Lemma recv_fds_first_rights (msg : msghdr) pre fds after :
  msg_control msg = Some (cmsgs_bytes pre ++ cmsg_bytes (rights fds) ++ after) ->
  Forall (fun r => ~ is_rights r /\ int_fields r) pre ->
  Forall is_int fds ->
  Z.of_nat (length (cmsgs_bytes pre ++ cmsg_bytes (rights fds)))
    <= msg_controllen msg <= INT_MAX ->
  recv_fds true msg = Returns (caml_list (Val_int <$> fds)).
Proof.
  intros Hctl Hpre Hint Hlen. unfold recv_fds. rewrite Hctl. cbn [default].
  pose proof (length_cmsgs_bytes_ge pre) as Hn.
  pose proof (data_len_le_length (rights fds)) as Hd.
  assert (Hdl : data_len (rights fds) = 4 * Z.of_nat (length fds)).
  { unfold data_len, rights. cbn [c_data]. rewrite length_int_array. lia. }
  rewrite length_app in Hlen. unfold sizeof_cmsghdr, INT_MAX in *.
  unfold CMSG_FIRSTHDR. rewrite Hctl.
  rewrite decide_True by (unfold sizeof_cmsghdr; lia).
  rewrite (scan_cmsgs_first_rights msg pre [] _ fds after (Val_int 0) Hpre).
  - cbn [app].
    rewrite collect_rights_rights by (done || unfold INT_MAX; lia).
    by rewrite caml_list_cons_fds.
  - cbn [app length]. rewrite length_app. lia.
  - lia.
Qed.
End ReceivedList.

(** C3. When the first rights record of the control data that [recvmsg]
    left carries the descriptors [fds], [wrapper_recv_msg] returns the byte
    count and the list [fds], first descriptor first. The records before it
    ([pre]) are of other types; what follows it ([after]) is arbitrary. *)
Theorem recv_fds_in_transmitted_order {OS : Type} `{!Posix OS}
    (fd n_iovs : Z) (iovs : list iovec) (w w' : OS) (r : Z) (msg : msghdr)
    (pre : list Kernel.cmsg) (fds after : list Z) :
  recvmsg fd (recv_msghdr true n_iovs iovs) 0 w = (r, msg, w') ->
  0 <= r <= INT_MAX ->
  msg_control msg = Some (cmsgs_bytes pre ++ cmsg_bytes (rights fds) ++ after) ->
  Forall (fun c => ~ is_rights c /\ int_fields c) pre ->
  Forall is_int fds ->
  Z.of_nat (length (cmsgs_bytes pre ++ cmsg_bytes (rights fds))) <= msg_controllen msg ->
  msg_controllen msg <= msg_controllen (recv_msghdr true n_iovs iovs) ->
  wrapper_recv_msg true fd n_iovs iovs w
  = (Returns (Block [Val_int r; caml_list (Val_int <$> fds)]), w').
Proof.
  intros Hcall Hr Hctl Hpre Hint Hlen Hcap. unfold wrapper_recv_msg. rewrite Hcall.
  rewrite to_int_small by (unfold INT_MIN, INT_MAX in *; lia).
  rewrite decide_False by lia.
  rewrite recv_msghdr_controllen in Hcap.
  rewrite (recv_fds_first_rights msg pre fds after) by (done || unfold INT_MAX; lia).
  done.
Qed.

(** C4. When the control data holds a rights record with [fds], then other
    records ([later]) among which there is at least one more rights record,
    the list returned is [fds] alone: the records after the first match are
    not read. *)
Theorem recv_fds_first_record_only {OS : Type} `{!Posix OS}
    (fd n_iovs : Z) (iovs : list iovec) (w w' : OS) (r : Z) (msg : msghdr)
    (pre later : list Kernel.cmsg) (fds after : list Z) :
  recvmsg fd (recv_msghdr true n_iovs iovs) 0 w = (r, msg, w') ->
  0 <= r <= INT_MAX ->
  msg_control msg
  = Some (cmsgs_bytes pre ++ cmsg_bytes (rights fds) ++ cmsgs_bytes later ++ after) ->
  Forall (fun c => ~ is_rights c /\ int_fields c) pre ->
  Exists is_rights later ->
  Forall is_int fds ->
  Z.of_nat (length (cmsgs_bytes pre ++ cmsg_bytes (rights fds) ++ cmsgs_bytes later))
    <= msg_controllen msg ->
  msg_controllen msg <= msg_controllen (recv_msghdr true n_iovs iovs) ->
  wrapper_recv_msg true fd n_iovs iovs w
  = (Returns (Block [Val_int r; caml_list (Val_int <$> fds)]), w').
Proof.
  intros Hcall Hr Hctl Hpre _ Hint Hlen Hcap. unfold wrapper_recv_msg. rewrite Hcall.
  rewrite to_int_small by (unfold INT_MIN, INT_MAX in *; lia).
  rewrite decide_False by lia.
  rewrite recv_msghdr_controllen in Hcap.
  rewrite (recv_fds_first_rights msg pre fds (cmsgs_bytes later ++ after)); [done..|].
  rewrite !length_app in *. unfold INT_MAX. lia.
Qed.

(** ** The capacity of the receive buffer *)

Section Capacity.
Context {OS : Type} `{!Posix OS}.
Implicit Types (ctl : list Z) (l res : value).

Lemma prepend_fds_returns ctl (p : Z) (k : nat) : forall l res,
  prepend_fds ctl p k l = Returns res ->
  exists ds, res = cons_fds ds l /\ length ds = k /\
             (k <> 0%nat -> p + sizeof_int * Z.of_nat k <= Z.of_nat (length ctl)).
Proof.
  induction k as [|i IH]; intros l res Hres.
  - exists []. injection Hres as <-. done.
  - cbn [prepend_fds] in Hres.
    destruct (load_int ctl (p + sizeof_int * Z.of_nat i)) as [fd|] eqn:Hload;
      cbn [defined mbind outcome_bind] in Hres; [|done].
    destruct (IH _ _ Hres) as (ds & -> & Hlen & _).
    exists (ds ++ [fd]). rewrite cons_fds_snoc, length_app. split; [done|].
    split; [simpl; lia|]. intros _.
    unfold load_int in Hload. destruct (load 4 ctl _) as [v|] eqn:Hv; [|done].
    apply load_in_bounds in Hv. unfold sizeof_int in *. lia.
Qed.

Lemma collect_rights_returns ctl (c : Z) l res :
  0 <= c -> collect_rights ctl c l = Returns res ->
  exists ds, res = cons_fds ds l /\
             sizeof_cmsghdr + sizeof_int * Z.of_nat (length ds)
             <= Z.max sizeof_cmsghdr (Z.of_nat (length ctl)).
Proof.
  intros Hc Hres. unfold collect_rights in Hres.
  destruct (load_size_t ctl _) as [len|]; cbn [defined mbind outcome_bind] in Hres; [|done].
  apply prepend_fds_returns in Hres as (ds & -> & Hlen & Hb).
  exists ds. split; [done|]. rewrite <- Hlen in Hb.
  unfold CMSG_DATA, sizeof_cmsghdr, sizeof_int in *.
  destruct (decide (length ds = 0%nat)) as [Hz|Hne]; [lia|].
  specialize (Hb Hne). lia.
Qed.

Lemma CMSG_NXTHDR_forward msg ctl (c nxt : Z) :
  CMSG_NXTHDR msg ctl c = Some (Some nxt) -> c <= nxt.
Proof.
  unfold CMSG_NXTHDR. destruct (load_size_t ctl (c + off_cmsg_len)) as [len|]; [|done].
  cbn [mbind option_bind]. case_decide; [done|].
  destruct (ptr_off (c + CMSG_ALIGN len)) as [nxt'|] eqn:Hoff; [|done].
  unfold ptr_off in Hoff. case_decide; [|done]. injection Hoff as <-.
  cbn [mbind option_bind]. case_decide; [done|].
  destruct (load_size_t ctl _) as [len'|]; [|done]. cbn [mbind option_bind].
  destruct (ptr_off _) as [past|]; [|done]. cbn [mbind option_bind].
  case_decide; [done|]. intros [= <-]. pose proof (CMSG_ALIGN_nonneg len). lia.
Qed.

Lemma scan_cmsgs_returns msg ctl (fuel : nat) : forall cm l res,
  (forall c, cm = Some c -> 0 <= c) ->
  scan_cmsgs fuel msg ctl cm l = Returns res ->
  exists ds, res = cons_fds ds l /\
             sizeof_cmsghdr + sizeof_int * Z.of_nat (length ds)
             <= Z.max sizeof_cmsghdr (Z.of_nat (length ctl)).
Proof.
  induction fuel as [|fuel IH]; intros [c|] l res Hc Hres; cbn [scan_cmsgs] in Hres;
    try done; try (injection Hres as <-; exists []; split; [done | simpl; lia]).
  destruct (load_int ctl (c + off_cmsg_level)) as [level|];
    cbn [defined mbind outcome_bind] in Hres; [|done].
  assert (Hnext : (nxt ← defined (CMSG_NXTHDR msg ctl c); scan_cmsgs fuel msg ctl nxt l)
                  = Returns res ->
                  exists ds, res = cons_fds ds l /\
                    sizeof_cmsghdr + sizeof_int * Z.of_nat (length ds)
                    <= Z.max sizeof_cmsghdr (Z.of_nat (length ctl))).
  { destruct (CMSG_NXTHDR msg ctl c) as [nxt|] eqn:Hn;
      cbn [defined mbind outcome_bind]; [|done].
    apply IH. intros c' ->. apply CMSG_NXTHDR_forward in Hn. specialize (Hc c eq_refl). lia. }
  destruct (decide (level = SOL_SOCKET)); cbn [mbind outcome_bind] in Hres; [|auto].
  destruct (load_int ctl (c + off_cmsg_type)) as [ty|];
    cbn [defined mbind outcome_bind] in Hres; [|done].
  destruct (bool_decide (ty = SCM_RIGHTS)); [|auto].
  eapply collect_rights_returns; [|done]. by apply Hc.
Qed.
End Capacity.

(** C10. With [HAVE_FD_PASSING], the header given to [recvmsg] has a control
    buffer of [CMSG_SPACE(256 * sizeof(int))] bytes, all zero, which is the
    size of one header and 256 [int]; and when the kernel leaves a buffer no
    longer than that, a list that [wrapper_recv_msg] returns has at most 256
    descriptors. *)
Theorem recv_control_capacity {OS : Type} `{!Posix OS}
    (fd n_iovs : Z) (iovs : list iovec) (w : OS) :
  let hdr := recv_msghdr true n_iovs iovs in
  msg_controllen hdr = CMSG_SPACE (256 * sizeof_int) /\
  msg_control hdr = Some (replicate (Z.to_nat (CMSG_SPACE (256 * sizeof_int))) 0) /\
  CMSG_SPACE (256 * sizeof_int) = sizeof_cmsghdr + 256 * sizeof_int /\
  forall (r : Z) (msg : msghdr) (w' : OS) (res : value),
    recvmsg fd hdr 0 w = (r, msg, w') ->
    (length (default [] (msg_control msg)) <= Z.to_nat (msg_controllen hdr))%nat ->
    fst (wrapper_recv_msg true fd n_iovs iovs w) = Returns res ->
    exists fds, res = Block [Val_int (to_int r); caml_list (Val_int <$> fds)] /\
                (length fds <= 256)%nat.
Proof.
  cbv zeta. repeat split.
  intros r msg w' res Hcall Hlen Hres.
  unfold wrapper_recv_msg in Hres. rewrite Hcall in Hres.
  case_decide; [done|]. cbn [fst] in Hres.
  destruct (recv_fds true msg) as [l| | |] eqn:Hfds; cbn [mbind outcome_bind] in Hres; try done.
  injection Hres as <-. unfold recv_fds in Hfds.
  apply scan_cmsgs_returns in Hfds as (ds & -> & Hds).
  - exists ds. rewrite caml_list_cons_fds. split; [done|].
    rewrite recv_msghdr_controllen in Hlen. unfold sizeof_cmsghdr, sizeof_int in Hds. lia.
  - intros c Hc. unfold CMSG_FIRSTHDR in Hc. case_decide; [|done].
    destruct (msg_control msg); [|done]. injection Hc as <-. done.
Qed.

(** ** The control buffer of a send *)

Section Sent.
Import Kernel.
Implicit Types (fds pre post : list Z).

(** The loop as the C text has it: while [Is_block(val_fds)], write
    [Int_val(Field(val_fds, 0))] at [fds], go on with [Field(val_fds, 1)]
    and [fds + 1]. *)
Lemma write_fds_loop (ctl : list Z) (p : Z) (val_fds : value) :
  write_fds ctl p val_fds
  = if Is_block val_fds
    then hd ← Field val_fds 0; fd ← Int_val hd; ctl' ← store_int ctl p fd;
         tl ← Field val_fds 1; write_fds ctl' (p + sizeof_int) tl
    else Some ctl.
Proof.
  destruct val_fds as [n|[|hd [|tl fs]]|a bs|d]; try reflexivity.
  cbn [write_fds Is_block Field lookup list_lookup mbind option_bind].
  destruct (Int_val hd) as [fd|]; [|done]. cbn [mbind option_bind].
  by destruct (store_int ctl p fd).
Qed.

(** The loop over the OCaml list writes its integers one after the
    other over the zeroed array. *)
Lemma write_fds_int_array fds : forall pre post,
  Forall is_int fds ->
  write_fds (pre ++ replicate (4 * length fds) 0 ++ post) (Z.of_nat (length pre))
            (caml_list (Val_int <$> fds))
  = Some (pre ++ int_array fds ++ post).
Proof.
  induction fds as [|d fds IH]; intros pre post Hint.
  - done.
  - inversion Hint as [|? ? Hd Hds]; subst.
    change (caml_list (Val_int <$> d :: fds))
      with (Block [Val_int d; caml_list (Val_int <$> fds)]).
    cbn [write_fds]. rewrite Int_val_Val_int by done. cbn [mbind option_bind].
    replace (4 * length (d :: fds))%nat with (4 + 4 * length fds)%nat by (simpl; lia).
    rewrite replicate_add, <- app_assoc.
    unfold store_int. rewrite store_app by done. cbn [mbind option_bind].
    replace (Z.of_nat (length pre) + sizeof_int)
      with (Z.of_nat (length (pre ++ le_bytes 4 d)))
      by (rewrite length_app, length_le_bytes; unfold sizeof_int; lia).
    rewrite (app_assoc pre (le_bytes 4 d)), IH by done.
    by rewrite <- app_assoc.
Qed.

Lemma to_size_t_fds (n : nat) :
  Z.of_nat n <= INT_MAX ->
  to_size_t (to_size_t (Z.of_nat n) * sizeof_int) = 4 * Z.of_nat n.
Proof.
  intros Hn. unfold INT_MAX, sizeof_int in *.
  rewrite !to_size_t_small; unfold SIZE_MAX; try lia.
  rewrite to_size_t_small; unfold SIZE_MAX; lia.
Qed.

(** What [send_control] builds for a list of [n_fds] descriptors. *)
Lemma send_control_rights (msg : msghdr) fds :
  fds <> [] -> Z.of_nat (length fds) <= INT_MAX -> Forall is_int fds ->
  send_control msg (Z.of_nat (length fds)) (caml_list (Val_int <$> fds))
  = Returns (set_control msg (Some (cmsg_bytes (rights fds)))
               (CMSG_SPACE (Z.of_nat (length fds) * sizeof_int))).
Proof.
  intros Hne Hlen Hint. unfold send_control. rewrite to_size_t_fds by done.
  replace (Z.of_nat (length fds) * sizeof_int) with (4 * Z.of_nat (length fds))
    by (unfold sizeof_int; lia).
  set (n := Z.of_nat (length fds)) in *.
  assert (Hn : 0 < n <= INT_MAX) by (destruct fds; [done | simpl in *; lia]).
  unfold INT_MAX in Hn.
  pose proof (CMSG_ALIGN_bounds (4 * n)) as Hal.
  rewrite CMSG_SPACE_eq, CMSG_LEN_eq by lia. unfold sizeof_cmsghdr.
  set (pad := Z.to_nat (CMSG_ALIGN (4 * n) - 4 * n)).
  assert (Hbuf : replicate (Z.to_nat (16 + CMSG_ALIGN (4 * n))) 0
                 = replicate 8 0 ++ replicate 4 0 ++ replicate 4 0
                   ++ replicate (4 * length fds) 0 ++ replicate pad 0).
  { rewrite <- !replicate_add. f_equal. unfold pad, n in *. lia. }
  unfold CMSG_FIRSTHDR. cbn [msg_controllen msg_control set_control].
  rewrite decide_True by (unfold sizeof_cmsghdr; lia).
  cbn [defined mbind outcome_bind]. rewrite Hbuf.
  unfold store_int, store_size_t, off_cmsg_level, off_cmsg_type, off_cmsg_len, CMSG_DATA,
    sizeof_cmsghdr.
  erewrite (store_at 4 _ (replicate 8 0) (replicate 4 0)); [| done | done | done].
  cbn [defined mbind outcome_bind].
  erewrite (store_at 4 _ (replicate 8 0 ++ le_bytes 4 SOL_SOCKET) (replicate 4 0));
    [| by rewrite <- !app_assoc | done | done].
  cbn [defined mbind outcome_bind].
  erewrite (store_at 8 _ [] (replicate 8 0)); [| by rewrite <- !app_assoc | done | done].
  cbn [defined mbind outcome_bind].
  pose proof (write_fds_int_array fds
                (le_bytes 8 (16 + 4 * n) ++ le_bytes 4 SOL_SOCKET ++ le_bytes 4 SCM_RIGHTS)
                (replicate pad 0) Hint) as Hw.
  rewrite !length_app, !length_le_bytes in Hw. rewrite <- !app_assoc in Hw.
  change (Z.of_nat (8 + (4 + 4))) with (0 + 16) in Hw.
  cbn [app]. rewrite Hw. cbn [defined mbind outcome_bind].
  unfold set_control. cbn [msg_name msg_namelen msg_iov msg_iovlen msg_flags].
  do 3 f_equal. unfold cmsg_bytes, rights. cbn [c_data c_level c_type].
  rewrite length_int_array.
  replace (Z.of_nat (4 * length fds)) with (4 * n) by (unfold n; lia).
  rewrite CMSG_LEN_eq by lia. done.
Qed.

(** The kernel reads that buffer as the one record. *)
Lemma parse_control_rights (msg : msghdr) fds :
  fds <> [] -> Z.of_nat (length fds) <= INT_MAX ->
  parse_control (set_control msg (Some (cmsg_bytes (rights fds)))
                   (CMSG_SPACE (Z.of_nat (length fds) * sizeof_int)))
  = Some [rights fds].
Proof.
  intros Hne Hlen. unfold parse_control. cbn [msg_control msg_controllen set_control].
  assert (Hdl : data_len (rights fds) = 4 * Z.of_nat (length fds)).
  { unfold data_len, rights. cbn [c_data]. rewrite length_int_array. lia. }
  replace (Z.of_nat (length fds) * sizeof_int) with (4 * Z.of_nat (length fds))
    by (unfold sizeof_int; lia).
  set (n := Z.of_nat (length fds)) in *.
  assert (Hn : 0 < n <= INT_MAX) by (destruct fds; [done | simpl in *; lia]).
  unfold INT_MAX in Hn.
  pose proof (CMSG_ALIGN_bounds (4 * n)) as Hal.
  pose proof (length_cmsg_bytes (rights fds)) as Hlb. rewrite Hdl in Hlb.
  rewrite CMSG_SPACE_eq in * by lia. unfold sizeof_cmsghdr in *.
  specialize (Hlb ltac:(lia)).
  pose proof (cmsg_len_at [] (rights fds) []) as Hl0.
  pose proof (cmsg_level_at [] (rights fds) []) as Hl1.
  pose proof (cmsg_type_at [] (rights fds) []) as Hl2.
  rewrite app_nil_r in Hl0, Hl1, Hl2. cbn [app length] in Hl0, Hl1, Hl2.
  change (Z.of_nat 0) with 0 in Hl0, Hl1, Hl2.
  rewrite Hdl in Hl0. unfold sizeof_cmsghdr in Hl0.
  cbn [parse_cmsgs]. unfold sizeof_cmsghdr.
  rewrite decide_False by lia.
  rewrite Hl0 by lia. cbn [mbind option_bind].
  rewrite Hl1 by (by vm_compute). cbn [mbind option_bind].
  rewrite Hl2 by (by vm_compute). cbn [mbind option_bind].
  rewrite decide_False by lia.
  pose proof (CMSG_ALIGN_header (4 * n)) as Hah. unfold sizeof_cmsghdr in Hah.
  rewrite Hah by lia.
  destruct (length (cmsg_bytes (rights fds))) as [|fuel] eqn:Hfuel; [lia|].
  cbn [parse_cmsgs]. unfold sizeof_cmsghdr. rewrite decide_True by lia.
  cbn [mbind option_bind]. do 2 f_equal.
  unfold rights at 3. f_equal.
  unfold cmsg_bytes, CMSG_DATA, sizeof_cmsghdr. cbn [rights c_data c_level c_type].
  rewrite !app_assoc, <- (app_assoc _ (int_array fds)).
  rewrite drop_app_length' by (by rewrite !length_app, !length_le_bytes).
  rewrite take_app_length' by (rewrite length_int_array; lia). done.
Qed.
(** The header of a send with a non-empty descriptor list. *)
Lemma send_msghdr_rights n_iovs iovs fds :
  fds <> [] -> Z.of_nat (length fds) <= INT_MAX -> Forall is_int fds ->
  send_msghdr true n_iovs iovs (Val_int (Z.of_nat (length fds))) (caml_list (Val_int <$> fds))
  = Returns (set_control (set_iov msghdr_zero iovs (to_size_t n_iovs))
               (Some (cmsg_bytes (rights fds)))
               (CMSG_SPACE (Z.of_nat (length fds) * sizeof_int))).
Proof.
  intros Hne Hlen Hint. unfold send_msghdr.
  rewrite Int_val_Val_int by (unfold INT_MIN, INT_MAX in *; lia).
  cbn [defined mbind outcome_bind].
  rewrite decide_True by (destruct fds; [done | simpl; lia]).
  by apply send_control_rights.
Qed.

End Sent.

(** C8. With [HAVE_FD_PASSING] and a list of [n > 0] descriptors, the
    header that reaches [sendmsg] has a control buffer of [CMSG_SPACE(n *
    sizeof(int))] bytes which the kernel reads as exactly one record: level
    [SOL_SOCKET], type [SCM_RIGHTS], [cmsg_len = CMSG_LEN(n * sizeof(int))],
    that is the header and [n] [int], and as data the descriptors in the order
    of the list. *)
Theorem send_attaches_one_rights_record
    (n_iovs : Z) (iovs : list iovec) (fds : list Z) :
  fds <> [] ->
  Z.of_nat (length fds) <= INT_MAX ->
  Forall is_int fds ->
  let n := Z.of_nat (length fds) in
  let ctl := cmsg_bytes (rights fds) in
  let msg := set_control (set_iov msghdr_zero iovs (to_size_t n_iovs))
               (Some ctl) (CMSG_SPACE (n * sizeof_int)) in
  send_msghdr true n_iovs iovs (Val_int n) (caml_list (Val_int <$> fds)) = Returns msg /\
  Kernel.parse_control msg = Some [rights fds] /\
  load_int ctl off_cmsg_level = Some SOL_SOCKET /\
  load_int ctl off_cmsg_type = Some SCM_RIGHTS /\
  load_size_t ctl off_cmsg_len = Some (CMSG_LEN (n * sizeof_int)) /\
  CMSG_LEN (n * sizeof_int) = sizeof_cmsghdr + n * sizeof_int /\
  (forall (i : nat) (d : Z),
     fds !! i = Some d -> load_int ctl (CMSG_DATA 0 + sizeof_int * Z.of_nat i) = Some d).
Proof.
  intros Hne Hlen Hint. cbv zeta.
  assert (Hdl : data_len (rights fds) = Z.of_nat (length fds) * sizeof_int).
  { unfold data_len, rights, sizeof_int. cbn [Kernel.c_data]. rewrite length_int_array. lia. }
  assert (Hn : 0 <= Z.of_nat (length fds) * sizeof_int <= 2 ^ 62)
    by (unfold INT_MAX, sizeof_int in *; lia).
  pose proof (cmsg_len_at [] (rights fds) []) as Hl0.
  pose proof (cmsg_level_at [] (rights fds) []) as Hl1.
  pose proof (cmsg_type_at [] (rights fds) []) as Hl2.
  pose proof (fun i d => rights_fd_at [] fds [] i d) as Hl3.
  rewrite app_nil_r in Hl0, Hl1, Hl2. cbn [app length] in Hl0, Hl1, Hl2.
  change (Z.of_nat 0) with 0 in Hl0, Hl1, Hl2.
  rewrite Hdl in Hl0.
  repeat split.
  - by apply send_msghdr_rights.
  - by apply parse_control_rights.
  - apply Hl1. by vm_compute.
  - apply Hl2. by vm_compute.
  - rewrite CMSG_LEN_eq by lia. apply Hl0. lia.
  - apply CMSG_LEN_eq. lia.
  - intros i d Hi. specialize (Hl3 i d Hi). rewrite app_nil_r in Hl3. apply Hl3.
    eapply Forall_lookup_1; eauto.
Qed.


(** ** The stubs on the reference kernel *)

Section OnKernel.
Import Kernel.
Implicit Types (w : world) (msg : msghdr) (iovs : list iovec) (m : Z -> Z) (data : list Z).

Lemma sendmsg_queues fd msg flags w anc :
  fd = sock w -> parse_control msg = Some anc ->
  sendmsg fd msg flags w
  = (Z.of_nat (length (gather (mem w) (vector msg))), enqueue w msg anc).
Proof.
  intros Hfd Hanc. cbn [sendmsg posix]. unfold sys_sendmsg.
  rewrite decide_True by done. by rewrite Hanc.
Qed.

Lemma recvmsg_takes fd msg flags w (msg1 : message) rest :
  fd = sock w -> rx w = msg1 :: rest ->
  recvmsg fd msg flags w
  = (Z.of_nat (length (data_in msg msg1)), deliver msg msg1, dequeue w msg msg1 rest).
Proof.
  intros Hfd Hrx. cbn [recvmsg posix]. unfold sys_recvmsg.
  rewrite decide_True by done. by rewrite Hrx.
Qed.

(** The header of a send keeps the vector it was given. *)
Lemma send_msghdr_vector have n_iovs iovs val_n_fds val_fds msg :
  send_msghdr have n_iovs iovs val_n_fds val_fds = Returns msg ->
  msg_iov msg = iovs /\ msg_iovlen msg = to_size_t n_iovs.
Proof.
  unfold send_msghdr. destruct (Int_val val_n_fds) as [n_fds|]; [|done].
  cbn [defined mbind outcome_bind].
  assert (Hplain : Returns (set_iov msghdr_zero iovs (to_size_t n_iovs)) = Returns msg ->
                   msg_iov msg = iovs /\ msg_iovlen msg = to_size_t n_iovs)
    by (by intros [= <-]).
  destruct have; case_decide; try done.
  unfold send_control.
  repeat (match goal with
          | |- context [defined ?o] => destruct o; cbn [defined mbind outcome_bind]; [|done]
          end).
  by intros [= <-].
Qed.

Lemma vector_all msg iovs :
  msg_iov msg = iovs -> msg_iovlen msg = to_size_t (Z.of_nat (length iovs)) ->
  Z.of_nat (length iovs) <= INT_MAX ->
  vector msg = iovs.
Proof.
  intros Hiov Hn Hlen. unfold vector. rewrite Hiov, Hn.
  rewrite to_size_t_small by (unfold INT_MAX, SIZE_MAX in *; lia).
  rewrite Nat2Z.id. by apply take_ge.
Qed.

Lemma recv_msghdr_vector have iovs :
  Z.of_nat (length iovs) <= INT_MAX ->
  vector (recv_msghdr have (Z.of_nat (length iovs)) iovs) = iovs.
Proof. intros Hlen. apply vector_all; [by destruct have | by destruct have | done]. Qed.

(** *** Scatter, then gather *)

Lemma read_bytes_ext (f g : Z -> Z) (base : Z) (n : nat) :
  (forall i : nat, (i < n)%nat -> f (base + Z.of_nat i) = g (base + Z.of_nat i)) ->
  read_bytes f base n = read_bytes g base n.
Proof.
  intros Hfg. unfold read_bytes. apply list_fmap_ext.
  intros i k Hk. apply lookup_seq in Hk as [-> Hi]. by apply Hfg.
Qed.

Lemma length_read_bytes m (base : Z) (n : nat) : length (read_bytes m base n) = n.
Proof. unfold read_bytes. by rewrite length_fmap, length_seq. Qed.

Lemma write_bytes_outside m (base : Z) data (a : Z) :
  a < base \/ base + Z.of_nat (length data) <= a ->
  write_bytes m base data a = m a.
Proof.
  intros Ha. unfold write_bytes. case_decide; [|done].
  rewrite lookup_ge_None_2; [done | lia].
Qed.

Lemma read_bytes_write_bytes m (base : Z) data :
  read_bytes (write_bytes m base data) base (length data) = data.
Proof.
  apply list_eq. intros i. unfold read_bytes. rewrite list_lookup_fmap.
  destruct (decide (i < length data)%nat) as [Hi|Hi].
  - rewrite lookup_seq_lt by done. cbn [fmap option_fmap option_map].
    unfold write_bytes. rewrite decide_True by lia.
    replace (Z.to_nat (base + Z.of_nat (0 + i) - base)) with i by lia.
    destruct (lookup_lt_is_Some_2 data i Hi) as [b Hb]. by rewrite Hb.
  - rewrite lookup_seq_ge by lia. by rewrite lookup_ge_None_2 by lia.
Qed.

Lemma scatter_outside iovs : forall m data (a : Z),
  Forall (fun v => a < iov_base v \/ iov_base v + Z.of_nat (Z.to_nat (iov_len v)) <= a) iovs ->
  scatter m iovs data a = m a.
Proof.
  induction iovs as [|v iovs IH]; intros m data a Hout; [done|].
  inversion Hout as [|? ? Hv Hrest]; subst. cbn [scatter].
  rewrite IH by done. apply write_bytes_outside.
  rewrite length_take. lia.
Qed.

Lemma gather_scatter iovs : forall m data,
  disjoint_regions iovs -> capacity iovs = length data ->
  gather (scatter m iovs data) iovs = data.
Proof.
  induction iovs as [|v iovs IH]; intros m data Hdis Hcap.
  - destruct data; [done | discriminate].
  - destruct Hdis as [Hv Hdis].
    change (capacity (v :: iovs)) with (Z.to_nat (iov_len v) + capacity iovs)%nat in Hcap.
    set (n := Z.to_nat (iov_len v)) in *.
    change (gather ?f (v :: iovs)) with (read_bytes f (iov_base v) n ++ gather f iovs).
    cbn [scatter]. fold n.
    rewrite IH by (done || rewrite length_drop; lia).
    transitivity (take n data ++ drop n data); [|apply take_drop]. f_equal.
    assert (Hn : length (take n data) = n) by (rewrite length_take; lia).
    pose proof (read_bytes_write_bytes m (iov_base v) (take n data)) as Hrw.
    rewrite Hn in Hrw. rewrite <- Hrw at 2.
    apply read_bytes_ext. intros i Hi.
    apply scatter_outside. eapply Forall_impl; [exact Hv|].
    intros u Hu. unfold apart in Hu. fold n in Hu. cbv beta. lia.
Qed.
End OnKernel.

Section EndToEnd.
Import Kernel.
Implicit Types (w : world) (msg hdr : msghdr) (iovs : list iovec) (m : Z -> Z).

Lemma wrapper_send_msg_queues have fd n_iovs iovs val_n_fds val_fds w msg anc :
  send_msghdr have n_iovs iovs val_n_fds val_fds = Returns msg ->
  fd = sock w -> parse_control msg = Some anc ->
  snd (wrapper_send_msg have fd n_iovs iovs val_n_fds val_fds w) = enqueue w msg anc /\
  (Z.of_nat (length (gather (mem w) (vector msg))) <= INT_MAX ->
   fst (wrapper_send_msg have fd n_iovs iovs val_n_fds val_fds w)
   = Returns (Val_int (Z.of_nat (length (gather (mem w) (vector msg)))))).
Proof.
  intros Hhdr Hfd Hanc. unfold wrapper_send_msg.
  rewrite Hhdr, (sendmsg_queues fd msg 0 w anc Hfd Hanc).
  split; [by case_decide|]. intros Hlen.
  rewrite to_int_small by (unfold INT_MIN, INT_MAX in *; lia).
  by rewrite decide_False by lia.
Qed.

Lemma wrapper_recv_msg_takes have fd n_iovs iovs w (msg1 : message) rest :
  fd = sock w -> rx w = msg1 :: rest ->
  let hdr := recv_msghdr have n_iovs iovs in
  Z.of_nat (length (data_in hdr msg1)) <= INT_MAX ->
  wrapper_recv_msg have fd n_iovs iovs w
  = (l ← recv_fds have (deliver hdr msg1);
     Returns (Block [Val_int (Z.of_nat (length (data_in hdr msg1))); l]),
     dequeue w hdr msg1 rest).
Proof.
  intros Hfd Hrx hdr Hlen. unfold wrapper_recv_msg. fold hdr.
  rewrite (recvmsg_takes fd hdr 0 w msg1 rest Hfd Hrx).
  rewrite to_int_small by (unfold INT_MIN, INT_MAX in *; lia).
  by rewrite decide_False by lia.
Qed.

(** The header of a send with the empty descriptor list. *)
Lemma send_msghdr_no_fds have n_iovs iovs :
  send_msghdr have n_iovs iovs (Val_int 0) (caml_list [])
  = Returns (set_iov msghdr_zero iovs (to_size_t n_iovs)).
Proof.
  unfold send_msghdr. rewrite Int_val_Val_int by (by vm_compute).
  cbn [defined mbind outcome_bind]. rewrite decide_False by lia. by destruct have.
Qed.

(** A message without control data leaves the descriptor list empty. *)
Lemma recv_fds_no_ancillary have hdr data :
  recv_fds have (deliver hdr {| payload := data; ancillary := [] |}) = Returns (Val_int 0).
Proof.
  unfold recv_fds. destruct have; [|done].
  assert (Hout : control_out hdr {| payload := data; ancillary := [] |} = []).
  { unfold control_out. by destruct (msg_control hdr). }
  unfold deliver. rewrite Hout. unfold CMSG_FIRSTHDR.
  cbn [msg_controllen set_control length]. by rewrite decide_False by (by vm_compute).
Qed.
End EndToEnd.

(** C9. With the empty descriptor list, on either build, the header that
    reaches [sendmsg] is the zeroed header with the vector: no control
    buffer. In the reference kernel the peer that receives what was sent gets
    the byte count and the empty descriptor list. *)
Theorem send_without_fds_no_control
    (have : bool) (n_iovs : Z) (iovs : list iovec) :
  let msg := set_iov msghdr_zero iovs (to_size_t n_iovs) in
  send_msghdr have n_iovs iovs (Val_int 0) (caml_list []) = Returns msg /\
  msg_control msg = None /\
  msg_controllen msg = 0 /\
  forall (m_s m_r : Z -> Z) (fd_s fd_r n_r : Z) (iovs_r : list iovec) (have_r : bool),
    Z.of_nat (length (Kernel.gather m_s (Kernel.vector msg))) <= INT_MAX ->
    let w_s := snd (wrapper_send_msg have fd_s n_iovs iovs (Val_int 0) (caml_list [])
                      (Kernel.fresh m_s fd_s)) in
    exists cnt,
      fst (wrapper_recv_msg have_r fd_r n_r iovs_r (Kernel.peer w_s m_r fd_r))
      = Returns (Block [Val_int cnt; Val_int 0]).
Proof.
  cbv zeta.
  pose proof (send_msghdr_no_fds have n_iovs iovs) as Hhdr.
  repeat split; [done|].
  intros m_s m_r fd_s fd_r n_r iovs_r have_r Hlen.
  destruct (wrapper_send_msg_queues have fd_s n_iovs iovs (Val_int 0) (caml_list [])
              (Kernel.fresh m_s fd_s) _ [] Hhdr eq_refl eq_refl) as [-> _].
  set (sent := {| Kernel.payload :=
                    Kernel.gather m_s (Kernel.vector (set_iov msghdr_zero iovs (to_size_t n_iovs)));
                  Kernel.ancillary := [] |}).
  eexists.
  rewrite (wrapper_recv_msg_takes have_r fd_r n_r iovs_r
             (Kernel.peer (Kernel.enqueue (Kernel.fresh m_s fd_s) _ []) m_r fd_r)
             sent [] eq_refl eq_refl).
  - cbn [fst]. unfold sent. rewrite recv_fds_no_ancillary. done.
  - unfold Kernel.data_in, sent. cbn [Kernel.payload Kernel.mem Kernel.fresh].
    rewrite length_take. lia.
Qed.

(** C2. In the reference kernel: the bytes gathered from [K] vectors of
    the sender's memory and sent in one message, then received into [M]
    vectors that do not overlap and hold together as many bytes, are the bytes
    gathered in order from the receiver's vectors afterwards; both stubs
    return that count. The send may carry any control data that
    [wrapper_send_msg] builds. *)
Theorem send_recv_roundtrip
    (have_s have_r : bool) (m_s m_r : Z -> Z) (fd_s fd_r : Z)
    (iovs_s iovs_r : list iovec) (val_n_fds val_fds : value)
    (msg : msghdr) (anc : list Kernel.cmsg) :
  let data := Kernel.gather m_s iovs_s in
  let K := Z.of_nat (length iovs_s) in
  let M := Z.of_nat (length iovs_r) in
  K <= INT_MAX -> M <= INT_MAX ->
  Z.of_nat (length data) <= INT_MAX ->
  send_msghdr have_s K iovs_s val_n_fds val_fds = Returns msg ->
  Kernel.parse_control msg = Some anc ->
  Kernel.capacity iovs_r = length data ->
  disjoint_regions iovs_r ->
  let sent := wrapper_send_msg have_s fd_s K iovs_s val_n_fds val_fds (Kernel.fresh m_s fd_s) in
  let rcvd := wrapper_recv_msg have_r fd_r M iovs_r (Kernel.peer (snd sent) m_r fd_r) in
  fst sent = Returns (Val_int (Z.of_nat (length data))) /\
  Kernel.gather (Kernel.mem (snd rcvd)) iovs_r = data /\
  fst rcvd
  = (l ← recv_fds have_r
           (Kernel.deliver (recv_msghdr have_r M iovs_r)
              {| Kernel.payload := data; Kernel.ancillary := anc |});
     Returns (Block [Val_int (Z.of_nat (length data)); l])) /\
  (anc = [] -> fst rcvd = Returns (Block [Val_int (Z.of_nat (length data)); Val_int 0])).
Proof.
  cbv zeta. intros HK HM Hlen Hhdr Hanc Hcap Hdis.
  destruct (send_msghdr_vector _ _ _ _ _ _ Hhdr) as [Hiov Hiovlen].
  pose proof (vector_all msg iovs_s Hiov Hiovlen HK) as Hvec.
  destruct (wrapper_send_msg_queues have_s fd_s _ iovs_s val_n_fds val_fds
              (Kernel.fresh m_s fd_s) msg anc Hhdr eq_refl Hanc) as [Hw Hret].
  cbn [Kernel.mem Kernel.fresh] in Hret. rewrite Hvec in Hret.
  rewrite Hw, (Hret Hlen). clear Hw Hret.
  assert (Hin : Kernel.data_in (recv_msghdr have_r (Z.of_nat (length iovs_r)) iovs_r)
                  {| Kernel.payload := Kernel.gather m_s iovs_s; Kernel.ancillary := anc |}
                = Kernel.gather m_s iovs_s).
  { unfold Kernel.data_in. rewrite recv_msghdr_vector by done.
    cbn [Kernel.payload]. apply take_ge. lia. }
  rewrite (wrapper_recv_msg_takes have_r fd_r _ iovs_r _
             {| Kernel.payload := Kernel.gather m_s iovs_s; Kernel.ancillary := anc |} []).
  - rewrite Hin. cbn [fst snd]. repeat split.
    + unfold Kernel.dequeue. cbn [Kernel.mem Kernel.peer].
      rewrite recv_msghdr_vector, Hin by done. by apply gather_scatter.
    + intros ->. by rewrite recv_fds_no_ancillary.
  - done.
  - unfold Kernel.peer, Kernel.enqueue. cbn [Kernel.rx Kernel.tx Kernel.fresh Kernel.mem app].
    by rewrite Hvec.
  - rewrite Hin. done.
Qed.

(** ** Further properties on the reference kernel *)

Section Further.
Import Kernel.
Implicit Types (w : world) (iovs : list iovec) (fds : list Z).

Lemma int_list_of_caml_list fds : int_list_of (caml_list (Val_int <$> fds)) = Some fds.
Proof.
  induction fds as [|d fds IH]; [done|].
  change (caml_list (Val_int <$> d :: fds))
    with (Block [Val_long d; caml_list (Val_int <$> fds)]).
  cbn [int_list_of]. by rewrite IH.
Qed.

(** What the kernel writes for one rights record that fits the buffer of
    a receive is the record as [cmsg_bytes] lays it out. *)
Lemma control_out_rights n_iovs iovs data fds :
  (length fds <= 256)%nat ->
  control_out (recv_msghdr true n_iovs iovs) {| payload := data; ancillary := [rights fds] |}
  = cmsg_bytes (rights fds).
Proof.
  intros Hlen. unfold control_out.
  change (msg_control (recv_msghdr true n_iovs iovs)) with (Some (replicate 1040 0)).
  change (msg_controllen (recv_msghdr true n_iovs iovs)) with 1040.
  cbv iota beta. rewrite length_replicate. change (1040 `min` Z.of_nat 1040) with 1040.
  cbn [ancillary put_cmsgs]. rewrite decide_False by (unfold sizeof_cmsghdr; lia).
  rewrite app_nil_r. unfold encode_cmsg.
  rewrite decide_True by done. unfold sizeof_cmsghdr, sizeof_int.
  change (4 * ((1040 - 16) / 4)) with 1024.
  assert (Hdl : length (c_data (rights fds)) = (4 * length fds)%nat)
    by (cbn [rights c_data]; apply length_int_array).
  rewrite (take_ge (c_data (rights fds))) by (rewrite Hdl; lia). unfold cmsg_bytes. rewrite Hdl.
  rewrite CMSG_SPACE_eq by lia. unfold sizeof_cmsghdr.
  rewrite CMSG_ALIGN_eq by lia.
  assert (Hq : (Z.of_nat (4 * length fds) + 7) / 8 < 129)
    by (apply Z.div_lt_upper_bound; lia).
  rewrite Z.min_l by lia.
  rewrite <- !app_assoc. do 4 f_equal.
  rewrite !length_app, !length_le_bytes, Hdl. f_equal. lia.
Qed.

Lemma recv_fds_delivered_rights n_iovs iovs data fds :
  (length fds <= 256)%nat -> Forall is_int fds ->
  recv_fds true (deliver (recv_msghdr true n_iovs iovs)
                   {| payload := data; ancillary := [rights fds] |})
  = Returns (caml_list (Val_int <$> fds)).
Proof.
  intros Hlen Hint.
  set (msg1 := {| payload := data; ancillary := [rights fds] |}).
  assert (Hdl : data_len (rights fds) = 4 * Z.of_nat (length fds)).
  { unfold data_len, rights. cbn [c_data]. rewrite length_int_array. lia. }
  pose proof (length_cmsg_bytes (rights fds)) as Hlb.
  rewrite Hdl, CMSG_SPACE_eq, CMSG_ALIGN_eq in Hlb by lia. unfold sizeof_cmsghdr in Hlb.
  assert (Hq : (4 * Z.of_nat (length fds) + 7) / 8 < 129)
    by (apply Z.div_lt_upper_bound; lia).
  specialize (Hlb ltac:(lia)).
  apply (recv_fds_first_rights _ [] fds
           (drop (length (cmsg_bytes (rights fds))) (replicate 1040 0))).
  - unfold deliver. cbn [msg_control set_control].
    unfold msg1. rewrite control_out_rights by done. done.
  - constructor.
  - done.
  - unfold deliver. cbn [msg_controllen set_control].
    unfold msg1. rewrite control_out_rights by done.
    change (cmsgs_bytes []) with (@nil Z). cbn [app]. unfold INT_MAX. lia.
Qed.
End Further.

(** X1. Orderly shutdown. A receive on the socket when the peer has shut down
    (nothing is queued) returns the count 0 and the empty descriptor list, on
    either build, and raises nothing. *)
Theorem recv_orderly_shutdown
    (have : bool) (fd n_iovs : Z) (iovs : list iovec) (w : Kernel.world) :
  fd = Kernel.sock w ->
  Kernel.rx w = [] ->
  wrapper_recv_msg have fd n_iovs iovs w = (Returns (Block [Val_int 0; Val_int 0]), w).
Proof.
  intros Hfd Hrx. unfold wrapper_recv_msg.
  cbn [recvmsg Kernel.posix]. unfold Kernel.sys_recvmsg.
  rewrite decide_True by done. rewrite Hrx.
  change (to_int 0) with 0. rewrite decide_False by lia.
  unfold recv_fds, CMSG_FIRSTHDR. cbn [msg_controllen set_control].
  rewrite decide_False by (by vm_compute). by destruct have.
Qed.

(** X2. Error propagation. A receive or a send on a descriptor that is not the
    socket raises [Unix_error] with the code [EBADF] the kernel set and the
    name of the stub; nothing is received or queued. *)
Theorem bad_descriptor_raises
    (have : bool) (fd n_iovs : Z) (iovs : list iovec) (w : Kernel.world) :
  fd <> Kernel.sock w ->
  wrapper_recv_msg have fd n_iovs iovs w
  = (Raises (Unix_error Kernel.EBADF "recv_msg" EmptyString), Kernel.set_err w Kernel.EBADF) /\
  wrapper_send_msg have fd n_iovs iovs (Val_int 0) (caml_list []) w
  = (Raises (Unix_error Kernel.EBADF "send_msg" EmptyString), Kernel.set_err w Kernel.EBADF).
Proof.
  intros Hfd. split.
  - unfold wrapper_recv_msg. cbn [recvmsg Kernel.posix]. unfold Kernel.sys_recvmsg.
    rewrite decide_False by done. change (to_int (-1)) with (-1).
    by rewrite decide_True by done.
  - unfold wrapper_send_msg.
    rewrite send_msghdr_no_fds.
    cbn [sendmsg Kernel.posix]. unfold Kernel.sys_sendmsg.
    rewrite decide_False by done. change (to_int (-1)) with (-1).
    by rewrite decide_True by done.
Qed.

(** X3. Descriptor round trip. With descriptor passing on both sides, a send
    with the descriptors [fds] (at most 256 of them) followed by the peer's
    receive returns to the peer the list [fds], in the order of the sender's
    list. The reference kernel hands the numbers over as they are; a real
    kernel installs the descriptors under new numbers in the same order. *)
Theorem descriptors_roundtrip
    (m_s m_r : Z -> Z) (fd_s fd_r n_iovs n_r : Z) (iovs_s iovs_r : list iovec)
    (fds : list Z) :
  fds <> [] ->
  (length fds <= 256)%nat ->
  Forall is_int fds ->
  Z.of_nat (length (Kernel.gather m_s (take (Z.to_nat (to_size_t n_iovs)) iovs_s))) <= INT_MAX ->
  let sent := wrapper_send_msg true fd_s n_iovs iovs_s
                (Val_int (Z.of_nat (length fds))) (caml_list (Val_int <$> fds))
                (Kernel.fresh m_s fd_s) in
  let rcvd := wrapper_recv_msg true fd_r n_r iovs_r (Kernel.peer (snd sent) m_r fd_r) in
  exists cnt, fst rcvd = Returns (Block [Val_int cnt; caml_list (Val_int <$> fds)]).
Proof.
  intros Hne Hlen Hint Hdata. cbv zeta.
  assert (Hn : Z.of_nat (length fds) <= INT_MAX) by (unfold INT_MAX; lia).
  pose proof (send_msghdr_rights n_iovs iovs_s fds Hne Hn Hint) as Hhdr.
  set (hdr := set_control (set_iov msghdr_zero iovs_s (to_size_t n_iovs))
                (Some (cmsg_bytes (rights fds)))
                (CMSG_SPACE (Z.of_nat (length fds) * sizeof_int))) in *.
  destruct (wrapper_send_msg_queues true fd_s n_iovs iovs_s _ _ (Kernel.fresh m_s fd_s)
              hdr [rights fds] Hhdr eq_refl (parse_control_rights _ fds Hne Hn)) as [-> _].
  set (msg1 := {| Kernel.payload :=
                    Kernel.gather m_s (take (Z.to_nat (to_size_t n_iovs)) iovs_s);
                  Kernel.ancillary := [rights fds] |}).
  eexists.
  rewrite (wrapper_recv_msg_takes true fd_r n_r iovs_r
             (Kernel.peer (Kernel.enqueue (Kernel.fresh m_s fd_s) hdr [rights fds]) m_r fd_r)
             msg1 [] eq_refl eq_refl).
  - cbn [fst]. unfold msg1. rewrite recv_fds_delivered_rights by done. done.
  - unfold Kernel.data_in, msg1. cbn [Kernel.payload]. rewrite length_take. lia.
Qed.

(** ** The properties at concrete inputs *)

(** C1 at two descriptors and an array of three entries: the third entry stays. *)
Lemma build_vector_entries_witness :
  Forall valid_descriptor ex_descriptors /\
  (length ex_descriptors <= length ex_out)%nat /\
  store_iovs ex_out 0 (caml_list (managed_val <$> ex_descriptors))
  = Some [{| iov_base := 1001; iov_len := 2 |}; {| iov_base := 2000; iov_len := 0 |};
          {| iov_base := 0; iov_len := 0 |}] /\
  bytes_store_iovs ex_out 0 (caml_list (external_val <$> ex_descriptors))
  = Some [{| iov_base := 1001; iov_len := 2 |}; {| iov_base := 2000; iov_len := 0 |};
          {| iov_base := 0; iov_len := 0 |}].
Proof.
  assert (Hv : Forall valid_descriptor ex_descriptors)
    by (repeat constructor; vm_compute; intros; discriminate).
  assert (Hl : (length ex_descriptors <= length ex_out)%nat) by (vm_compute; lia).
  split; [exact Hv|]. split; [exact Hl|].
  exact (build_vector_entries ex_descriptors ex_out Hv Hl).
Defined.

(** C2 at five bytes sent from two vectors and received into three. *)
Lemma send_recv_roundtrip_witness :
  let data := Kernel.gather ex_mem ex_iovs_s in
  let msg := set_iov msghdr_zero ex_iovs_s 2 in
  let sent := wrapper_send_msg true 3 2 ex_iovs_s (Val_int 0) (caml_list [])
                (Kernel.fresh ex_mem 3) in
  let rcvd := wrapper_recv_msg true 4 3 ex_iovs_r
                (Kernel.peer (snd sent) (fun _ => 0) 4) in
  data = [100; 101; 102; 200; 201] /\
  send_msghdr true 2 ex_iovs_s (Val_int 0) (caml_list []) = Returns msg /\
  Kernel.parse_control msg = Some [] /\
  Kernel.capacity ex_iovs_r = length data /\
  disjoint_regions ex_iovs_r /\
  fst sent = Returns (Val_int 5) /\
  Kernel.gather (Kernel.mem (snd rcvd)) ex_iovs_r = data /\
  fst rcvd = Returns (Block [Val_int 5; Val_int 0]).
Proof.
  cbv zeta.
  assert (Hhdr : send_msghdr true 2 ex_iovs_s (Val_int 0) (caml_list [])
                 = Returns (set_iov msghdr_zero ex_iovs_s 2)) by reflexivity.
  assert (Hanc : Kernel.parse_control (set_iov msghdr_zero ex_iovs_s 2) = Some [])
    by reflexivity.
  assert (Hcap : Kernel.capacity ex_iovs_r = length (Kernel.gather ex_mem ex_iovs_s))
    by reflexivity.
  assert (Hdis : disjoint_regions ex_iovs_r)
    by (repeat constructor; unfold apart; simpl; lia).
  destruct (send_recv_roundtrip true true ex_mem (fun _ => 0) 3 4 ex_iovs_s ex_iovs_r
              (Val_int 0) (caml_list []) (set_iov msghdr_zero ex_iovs_s 2) []
              ltac:(by_computation) ltac:(by_computation) ltac:(by_computation)
              Hhdr Hanc Hcap Hdis) as (Hs & Hg & _ & Hr).
  split; [reflexivity|]. split; [exact Hhdr|]. split; [exact Hanc|].
  split; [exact Hcap|]. split; [exact Hdis|]. split; [exact Hs|].
  split; [exact Hg | exact (Hr eq_refl)].
Defined.

(** C3 on the reference kernel: a record of another type, then the rights record with 11, 12, -1. *)
Lemma recv_fds_in_transmitted_order_witness :
  let w := ex_receiver [ex_other; rights [11; 12; -1]] in
  let reply := recvmsg 4 (recv_msghdr true 3 ex_iovs_r) 0 w in
  let msg := snd (fst reply) in
  msg_control msg
  = Some (cmsgs_bytes [ex_other] ++ cmsg_bytes (rights [11; 12; -1]) ++ replicate 984 0) /\
  Forall (fun c => ~ is_rights c /\ int_fields c) [ex_other] /\
  Forall is_int [11; 12; -1] /\
  msg_controllen msg = 56 /\
  wrapper_recv_msg true 4 3 ex_iovs_r w
  = (Returns (Block [Val_int 2; caml_list (Val_int <$> [11; 12; -1])]), snd reply).
Proof.
  cbv zeta.
  set (w := ex_receiver [ex_other; rights [11; 12; -1]]).
  set (reply := recvmsg 4 (recv_msghdr true 3 ex_iovs_r) 0 w).
  assert (Hctl : msg_control (snd (fst reply))
                 = Some (cmsgs_bytes [ex_other] ++ cmsg_bytes (rights [11; 12; -1])
                           ++ replicate 984 0)) by reflexivity.
  assert (Hpre : Forall (fun c => ~ is_rights c /\ int_fields c) [ex_other]).
  { repeat constructor; [intros [_ Hty]; discriminate Hty | by_computation..]. }
  assert (Hint : Forall is_int [11; 12; -1]) by (repeat constructor; by_computation).
  split; [exact Hctl|]. split; [exact Hpre|]. split; [exact Hint|]. split; [reflexivity|].
  exact (recv_fds_in_transmitted_order 4 3 ex_iovs_r w (snd reply) 2 (snd (fst reply))
           [ex_other] [11; 12; -1] (replicate 984 0)
           eq_refl ltac:(by_computation) Hctl Hpre Hint
           ltac:(by_computation) ltac:(by_computation)).
Defined.

(** C4 on the reference kernel: a second rights record, with 13, follows the first. *)
Lemma recv_fds_first_record_only_witness :
  let w := ex_receiver [ex_other; rights [11; 12; -1]; rights [13]] in
  let reply := recvmsg 4 (recv_msghdr true 3 ex_iovs_r) 0 w in
  let msg := snd (fst reply) in
  msg_control msg
  = Some (cmsgs_bytes [ex_other] ++ cmsg_bytes (rights [11; 12; -1])
            ++ cmsgs_bytes [rights [13]] ++ replicate 960 0) /\
  Forall (fun c => ~ is_rights c /\ int_fields c) [ex_other] /\
  Exists is_rights [rights [13]] /\
  Forall is_int [11; 12; -1] /\
  msg_controllen msg = 80 /\
  wrapper_recv_msg true 4 3 ex_iovs_r w
  = (Returns (Block [Val_int 2; caml_list (Val_int <$> [11; 12; -1])]), snd reply).
Proof.
  cbv zeta.
  set (w := ex_receiver [ex_other; rights [11; 12; -1]; rights [13]]).
  set (reply := recvmsg 4 (recv_msghdr true 3 ex_iovs_r) 0 w).
  assert (Hctl : msg_control (snd (fst reply))
                 = Some (cmsgs_bytes [ex_other] ++ cmsg_bytes (rights [11; 12; -1])
                           ++ cmsgs_bytes [rights [13]] ++ replicate 960 0)) by reflexivity.
  assert (Hpre : Forall (fun c => ~ is_rights c /\ int_fields c) [ex_other]).
  { repeat constructor; [intros [_ Hty]; discriminate Hty | by_computation..]. }
  assert (Hlater : Exists is_rights [rights [13]]) by (left; split; reflexivity).
  assert (Hint : Forall is_int [11; 12; -1]) by (repeat constructor; by_computation).
  split; [exact Hctl|]. split; [exact Hpre|]. split; [exact Hlater|].
  split; [exact Hint|]. split; [reflexivity|].
  exact (recv_fds_first_record_only 4 3 ex_iovs_r w (snd reply) 2 (snd (fst reply))
           [ex_other] [rights [13]] [11; 12; -1] (replicate 960 0)
           eq_refl ltac:(by_computation) Hctl Hpre Hlater Hint
           ltac:(by_computation) ltac:(by_computation)).
Defined.

(** C5 on the reference kernel: the send with two descriptors leaves the world as it was. *)
Lemma send_without_fd_passing_witness :
  let w := Kernel.fresh ex_mem 3 in
  let sent := sendmsg 3 (set_iov msghdr_zero ex_iovs_s (to_size_t 2)) 0 w in
  ex_fds <> [] /\
  Z.of_nat (length ex_fds) <= INT_MAX /\
  wrapper_send_msg false 3 2 ex_iovs_s (Val_int 2) (caml_list (Val_int <$> ex_fds)) w
  = (Raises (Not_available "fd_passing"), w) /\
  fst sent = 5 /\
  wrapper_send_msg false 3 2 ex_iovs_s (Val_int 0) (caml_list []) w
  = (Returns (Val_int 5), snd sent).
Proof.
  cbv zeta.
  destruct (send_without_fd_passing 3 2 ex_iovs_s (Kernel.fresh ex_mem 3)) as [Hfail Hplain].
  split; [discriminate|]. split; [by_computation|].
  split; [exact (Hfail ex_fds ltac:(discriminate) ltac:(by_computation))|].
  split; [reflexivity|].
  exact (Hplain 5 _ eq_refl ltac:(by_computation)).
Defined.

(** C6 on the reference kernel, on a descriptor that is not the socket. *)
Lemma io_failure_iff_witness :
  let w := Kernel.fresh ex_mem 3 in
  let reply := recvmsg 7 (recv_msghdr true 2 ex_iovs_s) 0 w in
  let hdr := set_iov msghdr_zero ex_iovs_s 2 in
  let sent := sendmsg 7 hdr 0 w in
  fst (fst reply) = -1 /\
  (forall e, fst (wrapper_recv_msg true 7 2 ex_iovs_s w) = Raises e <->
             -1 = -1 /\ e = Unix_error (errno (snd reply)) "recv_msg" EmptyString) /\
  send_msghdr true 2 ex_iovs_s (Val_int 0) (caml_list []) = Returns hdr /\
  fst sent = -1 /\
  (forall e, fst (wrapper_send_msg true 7 2 ex_iovs_s (Val_int 0) (caml_list []) w) = Raises e <->
             -1 = -1 /\ e = Unix_error (errno (snd sent)) "send_msg" EmptyString).
Proof.
  cbv zeta.
  destruct (io_failure_iff true 7 2 ex_iovs_s (Kernel.fresh ex_mem 3)) as [Hrecv Hsend].
  destruct (Hrecv (-1) _ _ eq_refl ltac:(by_computation)) as (_ & Hr & _).
  destruct (Hsend (Val_int 0) (caml_list []) _ (-1) _ eq_refl eq_refl ltac:(by_computation))
    as (_ & Hs).
  split; [reflexivity|]. split; [exact Hr|]. split; [reflexivity|].
  split; [reflexivity | exact Hs].
Defined.

(** C7 on the reference kernel: the message carries two descriptors, none is returned. *)
Lemma recv_without_fd_passing_witness :
  let w := ex_receiver [rights [11; 12]] in
  let reply := recvmsg 4 (set_iov msghdr_zero ex_iovs_r (to_size_t 3)) 0 w in
  fst (fst reply) = 2 /\
  Kernel.ancillary <$> Kernel.rx w = [[rights [11; 12]]] /\
  wrapper_recv_msg false 4 3 ex_iovs_r w
  = (Returns (Block [Val_int 2; Val_int 0]), snd reply).
Proof.
  cbv zeta. split; [reflexivity|]. split; [reflexivity|].
  exact (recv_without_fd_passing 4 3 ex_iovs_r (ex_receiver [rights [11; 12]]) _ 2 _
           eq_refl ltac:(by_computation)).
Defined.

(** C8 at the descriptors 5 and 7: the 24 bytes of the control buffer. *)
Lemma send_attaches_one_rights_record_witness :
  let ctl := cmsg_bytes (rights ex_fds) in
  let msg := set_control (set_iov msghdr_zero ex_iovs_s 2) (Some ctl) 24 in
  ex_fds <> [] /\
  Forall is_int ex_fds /\
  ctl = [24; 0; 0; 0; 0; 0; 0; 0;  1; 0; 0; 0;  1; 0; 0; 0;  5; 0; 0; 0;  7; 0; 0; 0] /\
  send_msghdr true 2 ex_iovs_s (Val_int 2) (caml_list (Val_int <$> ex_fds)) = Returns msg /\
  Kernel.parse_control msg = Some [rights ex_fds] /\
  load_size_t ctl off_cmsg_len = Some (sizeof_cmsghdr + 2 * sizeof_int) /\
  load_int ctl (CMSG_DATA 0 + sizeof_int * 1) = Some 7.
Proof.
  cbv zeta.
  assert (Hint : Forall is_int ex_fds) by (repeat constructor; by_computation).
  destruct (send_attaches_one_rights_record 2 ex_iovs_s ex_fds
              ltac:(discriminate) ltac:(by_computation) Hint)
    as (Hhdr & Hparse & _ & _ & Hlen & _ & Hfd).
  split; [discriminate|]. split; [exact Hint|]. split; [reflexivity|].
  split; [exact Hhdr|]. split; [exact Hparse|]. split; [exact Hlen|].
  exact (Hfd 1%nat 7 eq_refl).
Defined.

(** C9 on the reference kernel. *)
Lemma send_without_fds_no_control_witness :
  let msg := set_iov msghdr_zero ex_iovs_s 2 in
  let w_s := snd (wrapper_send_msg true 3 2 ex_iovs_s (Val_int 0) (caml_list [])
                    (Kernel.fresh ex_mem 3)) in
  Z.of_nat (length (Kernel.gather ex_mem (Kernel.vector msg))) <= INT_MAX /\
  Kernel.ancillary <$> Kernel.tx w_s = [[]] /\
  exists cnt,
    fst (wrapper_recv_msg true 4 3 ex_iovs_r (Kernel.peer w_s (fun _ => 0) 4))
    = Returns (Block [Val_int cnt; Val_int 0]).
Proof.
  cbv zeta.
  destruct (send_without_fds_no_control true 2 ex_iovs_s) as (_ & _ & _ & Hpeer).
  split; [by_computation|]. split; [reflexivity|].
  exact (Hpeer ex_mem (fun _ => 0) 3 4 3 ex_iovs_r true ltac:(by_computation)).
Defined.

(** C10 on the reference kernel: of 300 descriptors sent in one record, the first 256 are returned. *)
Lemma recv_control_capacity_witness :
  let w := ex_receiver [rights ex_many_fds] in
  let hdr := recv_msghdr true 3 ex_iovs_r in
  let reply := recvmsg 4 hdr 0 w in
  length ex_many_fds = 300%nat /\
  (length (default [] (msg_control (snd (fst reply)))) <= Z.to_nat (msg_controllen hdr))%nat /\
  fst (wrapper_recv_msg true 4 3 ex_iovs_r w)
  = Returns (Block [Val_int 2; caml_list (Val_int <$> take 256 ex_many_fds)]) /\
  exists fds,
    Block [Val_int 2; caml_list (Val_int <$> take 256 ex_many_fds)]
    = Block [Val_int (to_int (fst (fst reply))); caml_list (Val_int <$> fds)] /\
    (length fds <= 256)%nat.
Proof.
  cbv zeta.
  destruct (recv_control_capacity 4 3 ex_iovs_r (ex_receiver [rights ex_many_fds]))
    as (_ & _ & _ & Hcap).
  assert (Hres : fst (wrapper_recv_msg true 4 3 ex_iovs_r (ex_receiver [rights ex_many_fds]))
                 = Returns (Block [Val_int 2; caml_list (Val_int <$> take 256 ex_many_fds)]))
    by (vm_compute; reflexivity).
  assert (Hlen : (length (default [] (msg_control (snd (fst
                    (recvmsg 4 (recv_msghdr true 3 ex_iovs_r) 0
                       (ex_receiver [rights ex_many_fds]))))))
                  <= Z.to_nat (msg_controllen (recv_msghdr true 3 ex_iovs_r)))%nat)
    by (vm_compute; lia).
  split; [reflexivity|]. split; [exact Hlen|]. split; [exact Hres|].
  exact (Hcap _ _ _ _ eq_refl Hlen Hres).
Defined.

(** X1 on a socket with nothing queued. *)
Lemma recv_orderly_shutdown_witness :
  Kernel.rx (Kernel.fresh ex_mem 4) = [] /\
  wrapper_recv_msg true 4 3 ex_iovs_r (Kernel.fresh ex_mem 4)
  = (Returns (Block [Val_int 0; Val_int 0]), Kernel.fresh ex_mem 4).
Proof.
  split; [reflexivity|].
  exact (recv_orderly_shutdown true 4 3 ex_iovs_r (Kernel.fresh ex_mem 4) eq_refl eq_refl).
Defined.

(** X2 on descriptor 7 when the socket is 3. *)
Lemma bad_descriptor_raises_witness :
  7 <> Kernel.sock (Kernel.fresh ex_mem 3) /\
  wrapper_recv_msg true 7 3 ex_iovs_r (Kernel.fresh ex_mem 3)
  = (Raises (Unix_error 9 "recv_msg" EmptyString),
     Kernel.set_err (Kernel.fresh ex_mem 3) 9) /\
  wrapper_send_msg true 7 3 ex_iovs_r (Val_int 0) (caml_list []) (Kernel.fresh ex_mem 3)
  = (Raises (Unix_error 9 "send_msg" EmptyString),
     Kernel.set_err (Kernel.fresh ex_mem 3) 9).
Proof.
  assert (Hfd : 7 <> Kernel.sock (Kernel.fresh ex_mem 3)) by discriminate.
  split; [exact Hfd|].
  exact (bad_descriptor_raises true 7 3 ex_iovs_r (Kernel.fresh ex_mem 3) Hfd).
Defined.

(** X3 at the descriptors 5 and 7. *)
Lemma descriptors_roundtrip_witness :
  let sent := wrapper_send_msg true 3 2 ex_iovs_s (Val_int 2) (caml_list (Val_int <$> ex_fds))
                (Kernel.fresh ex_mem 3) in
  let rcvd := wrapper_recv_msg true 4 3 ex_iovs_r (Kernel.peer (snd sent) (fun _ => 0) 4) in
  Forall is_int ex_fds /\
  fst rcvd = Returns (Block [Val_int 5; caml_list (Val_int <$> ex_fds)]) /\
  exists cnt, fst rcvd = Returns (Block [Val_int cnt; caml_list (Val_int <$> ex_fds)]).
Proof.
  cbv zeta.
  assert (Hint : Forall is_int ex_fds) by (repeat constructor; by_computation).
  split; [exact Hint|]. split; [reflexivity|].
  exact (descriptors_roundtrip ex_mem (fun _ => 0) 3 4 2 3 ex_iovs_s ex_iovs_r ex_fds
           ltac:(discriminate) ltac:(by_computation) Hint ltac:(by_computation)).
Defined.

(** * Further properties of the four functions *)

(** ** The builders on any input *)

Section BuildersAnyInput.
Implicit Types (ds : list buffer_descriptor) (out pre rest : list iovec) (l : value).

(** The entry a descriptor gives when nothing is assumed of its offset
    and length. *)
Lemma iov_of_string_triple_any d :
  iov_of_string_triple (managed_val d) = Some (entry_of d).
Proof. reflexivity. Qed.

Lemma iov_of_bigarray_triple_any d :
  iov_of_bigarray_triple (external_val d) = Some (entry_of d).
Proof. reflexivity. Qed.

Lemma store_iovs_any_from ds : forall pre rest,
  (length ds <= length rest)%nat ->
  store_iovs (pre ++ rest) (length pre) (caml_list (managed_val <$> ds))
  = Some (pre ++ (entry_of <$> ds) ++ drop (length ds) rest).
Proof.
  induction ds as [|d ds IH]; intros pre rest Hlen; [done|].
  destruct rest as [|e0 rest]; [simpl in Hlen; lia|].
  cbn [fmap list_fmap caml_list store_iovs].
  rewrite iov_of_string_triple_any. cbn [mbind option_bind].
  rewrite store_iov_app. cbn [mbind option_bind].
  replace (S (length pre)) with (length (pre ++ [entry_of d]))
    by (rewrite length_app; simpl; lia).
  rewrite IH by (simpl in Hlen; lia).
  by rewrite <- app_assoc.
Qed.

Lemma bytes_store_iovs_any_from ds : forall pre rest,
  (length ds <= length rest)%nat ->
  bytes_store_iovs (pre ++ rest) (length pre) (caml_list (external_val <$> ds))
  = Some (pre ++ (entry_of <$> ds) ++ drop (length ds) rest).
Proof.
  induction ds as [|d ds IH]; intros pre rest Hlen; [done|].
  destruct rest as [|e0 rest]; [simpl in Hlen; lia|].
  cbn [fmap list_fmap caml_list bytes_store_iovs].
  rewrite iov_of_bigarray_triple_any. cbn [mbind option_bind].
  rewrite store_iov_app. cbn [mbind option_bind].
  replace (S (length pre)) with (length (pre ++ [entry_of d]))
    by (rewrite length_app; simpl; lia).
  rewrite IH by (simpl in Hlen; lia).
  by rewrite <- app_assoc.
Qed.
End BuildersAnyInput.

(** X4. The builders validate nothing: for any offsets and lengths,
    negative ones included, and an array with room for the list, both write
    for the [i]-th descriptor the entry whose base is base + offset and whose
    length is the length, each reduced modulo 2^64; the array keeps its
    size. *)
Theorem builders_do_not_validate (ds : list buffer_descriptor) (out : list iovec) :
  (length ds <= length out)%nat ->
  exists iovs,
    store_iovs out 0 (caml_list (managed_val <$> ds)) = Some iovs /\
    bytes_store_iovs out 0 (caml_list (external_val <$> ds)) = Some iovs /\
    length iovs = length out /\
    forall (i : nat) (d : buffer_descriptor),
      ds !! i = Some d ->
      iovs !! i = Some {| iov_base := (region_base d + offset d) mod 2 ^ 64;
                          iov_len := len d mod 2 ^ 64 |}.
Proof.
  intros Hlen. exists ((entry_of <$> ds) ++ drop (length ds) out).
  split; [apply (store_iovs_any_from ds [] out Hlen)|].
  split; [apply (bytes_store_iovs_any_from ds [] out Hlen)|].
  split.
  - rewrite length_app, length_fmap, length_drop. lia.
  - intros i d Hi. rewrite lookup_app_l by (rewrite length_fmap; by eapply lookup_lt_Some).
    rewrite list_lookup_fmap, Hi. done.
Qed.

Section BuildersBounds.
Implicit Types (ds : list buffer_descriptor) (out : list iovec) (l : value).

Lemma length_store_iov out (p : nat) e out' :
  store_iov out p e = Some out' -> length out' = length out /\ take p out' = take p out.
Proof.
  unfold store_iov. case_decide; [|done]. intros [= <-].
  split; [apply length_insert|]. by rewrite take_insert_ge by lia.
Qed.

Lemma store_iovs_overrun ds : forall out (p : nat),
  (p <= length out < p + length ds)%nat ->
  store_iovs out p (caml_list (managed_val <$> ds)) = None.
Proof.
  induction ds as [|d ds IH]; intros out p Hp; [simpl in Hp; lia|].
  cbn [fmap list_fmap caml_list store_iovs].
  rewrite iov_of_string_triple_any. cbn [mbind option_bind].
  destruct (store_iov out p (entry_of d)) as [out'|] eqn:Hst; [|done].
  cbn [mbind option_bind].
  pose proof Hst as Hst'. unfold store_iov in Hst'. case_decide; [|done].
  apply length_store_iov in Hst as [Hl _].
  apply IH. rewrite Hl. simpl in Hp. lia.
Qed.

Lemma bytes_store_iovs_overrun ds : forall out (p : nat),
  (p <= length out < p + length ds)%nat ->
  bytes_store_iovs out p (caml_list (external_val <$> ds)) = None.
Proof.
  induction ds as [|d ds IH]; intros out p Hp; [simpl in Hp; lia|].
  cbn [fmap list_fmap caml_list bytes_store_iovs].
  rewrite iov_of_bigarray_triple_any. cbn [mbind option_bind].
  destruct (store_iov out p (entry_of d)) as [out'|] eqn:Hst; [|done].
  cbn [mbind option_bind].
  pose proof Hst as Hst'. unfold store_iov in Hst'. case_decide; [|done].
  apply length_store_iov in Hst as [Hl _].
  apply IH. rewrite Hl. simpl in Hp. lia.
Qed.

(** Induction along the spine of an OCaml list, for any value. *)
Lemma value_spine_ind (P : value -> Prop) :
  (forall n, P (Val_long n)) ->
  (forall fs, match fs with _ :: tl :: _ => P tl | _ => True end -> P (Block fs)) ->
  (forall a bs, P (Bytes_block a bs)) ->
  (forall d, P (Bigarray_block d)) ->
  forall v, P v.
Proof.
  intros Hlong Hblock Hbytes Hba.
  fix IH 1. intros [n|fs|a bs|d]; [apply Hlong | | apply Hbytes | apply Hba].
  apply Hblock. destruct fs as [|x [|tl rest]]; [exact I | exact I | apply IH].
Qed.

Lemma store_iovs_frame l : forall out (p : nat) out',
  store_iovs out p l = Some out' ->
  length out' = length out /\ take p out' = take p out.
Proof.
  induction l as [n|fs IH|a bs|d] using value_spine_ind; intros out p out' Hrun;
    try discriminate.
  - by injection Hrun as <-.
  - destruct fs as [|x [|tl rest]]; try discriminate.
    cbn [store_iovs] in Hrun.
    destruct (iov_of_string_triple x) as [e|]; [|done]. cbn [mbind option_bind] in Hrun.
    destruct (store_iov out p e) as [out1|] eqn:Hst; [|done].
    cbn [mbind option_bind] in Hrun.
    apply length_store_iov in Hst as [Hl1 Ht1].
    destruct (IH out1 (S p) out' Hrun) as [Hl2 Ht2].
    split; [congruence|].
    rewrite <- Ht1.
    assert (Hpre : forall x : list iovec, take p x = take p (take (S p) x))
      by (intros x0; rewrite take_take; f_equal; lia).
    by rewrite (Hpre out'), Ht2, <- Hpre.
Qed.
End BuildersBounds.

Lemma bytes_store_iovs_frame (l : value) : forall (out : list iovec) (p : nat) out',
  bytes_store_iovs out p l = Some out' ->
  length out' = length out /\ take p out' = take p out.
Proof.
  induction l as [n|fs IH|a bs|d] using value_spine_ind; intros out p out' Hrun;
    try discriminate.
  - by injection Hrun as <-.
  - destruct fs as [|x [|tl rest]]; try discriminate.
    cbn [bytes_store_iovs] in Hrun.
    destruct (iov_of_bigarray_triple x) as [e|]; [|done]. cbn [mbind option_bind] in Hrun.
    destruct (store_iov out p e) as [out1|] eqn:Hst; [|done].
    cbn [mbind option_bind] in Hrun.
    apply length_store_iov in Hst as [Hl1 Ht1].
    destruct (IH out1 (S p) out' Hrun) as [Hl2 Ht2].
    split; [congruence|].
    rewrite <- Ht1.
    assert (Hpre : forall x : list iovec, take p x = take p (take (S p) x))
      by (intros x0; rewrite take_take; f_equal; lia).
    by rewrite (Hpre out'), Ht2, <- Hpre.
Qed.

(** X5. The builders do not check the capacity of the output array: when
    the list has more descriptors than the array has entries, the write of
    entry number [length out] falls outside the array, which is undefined
    behaviour, whatever the descriptors are. *)
Theorem builders_overrun_short_array (ds : list buffer_descriptor) (out : list iovec) :
  (length out < length ds)%nat ->
  store_iovs out 0 (caml_list (managed_val <$> ds)) = None /\
  bytes_store_iovs out 0 (caml_list (external_val <$> ds)) = None.
Proof.
  intros Hlen. split.
  - apply store_iovs_overrun. lia.
  - apply bytes_store_iovs_overrun. lia.
Qed.

(** X6. Whatever OCaml value a builder is given, well formed or not, a
    run that is defined leaves the array with the size it had and with the
    entries before the position it was handed as they were. *)
Theorem builders_keep_size_and_prefix
    (l : value) (out out' : list iovec) (p : nat) :
  store_iovs out p l = Some out' \/ bytes_store_iovs out p l = Some out' ->
  length out' = length out /\ take p out' = take p out.
Proof.
  intros [Hrun|Hrun].
  - by apply (store_iovs_frame l out p out').
  - by apply (bytes_store_iovs_frame l out p out').
Qed.

(** ** Receiving: records that are not descriptors *)

Section OtherRecords.
Import Kernel.
Implicit Types (r : cmsg) (recs : list cmsg) (before after : list Z) (l : value).

(** One turn of the loop at a record that is not of rights type. *)
Lemma scan_cmsgs_skip msg (fuel : nat) before r after l :
  ~ is_rights r -> int_fields r ->
  scan_cmsgs (S fuel) msg (before ++ cmsg_bytes r ++ after) (Some (Z.of_nat (length before))) l
  = (nxt ← defined (CMSG_NXTHDR msg (before ++ cmsg_bytes r ++ after)
                      (Z.of_nat (length before)));
     scan_cmsgs fuel msg (before ++ cmsg_bytes r ++ after) nxt l).
Proof.
  intros Hnr Hint. cbn [scan_cmsgs].
  rewrite cmsg_level_at by done. cbn [defined mbind outcome_bind].
  case_decide as Hl; [|done].
  rewrite cmsg_type_at by done. cbn [defined mbind outcome_bind].
  rewrite bool_decide_eq_false_2; [done|]. intros Ht. by apply Hnr.
Qed.

(** After the last record the next header is the null pointer. *)
Lemma CMSG_NXTHDR_last msg before r after :
  msg_controllen msg = Z.of_nat (length (before ++ cmsg_bytes r)) ->
  msg_controllen msg <= 2 ^ 62 ->
  CMSG_NXTHDR msg (before ++ cmsg_bytes r ++ after) (Z.of_nat (length before)) = Some None.
Proof.
  intros Hlen Hmax. rewrite length_app in Hlen.
  pose proof (data_len_le_length r) as Hr.
  assert (0 <= data_len r) by (unfold data_len; lia).
  unfold sizeof_cmsghdr in *.
  pose proof (length_cmsg_bytes r) as Lr.
  rewrite CMSG_SPACE_eq in Lr by lia. unfold sizeof_cmsghdr in *.
  pose proof (CMSG_ALIGN_header (data_len r)) as Ar. unfold sizeof_cmsghdr in Ar.
  unfold CMSG_NXTHDR.
  rewrite cmsg_len_at by lia. cbn [mbind option_bind]. unfold sizeof_cmsghdr.
  rewrite decide_False by lia.
  rewrite Ar by lia.
  rewrite ptr_off_small by lia. cbn [mbind option_bind].
  by rewrite decide_True by lia.
Qed.

Lemma scan_cmsgs_no_rights msg recs : forall before (fuel : nat) after l,
  Forall (fun r => ~ is_rights r /\ int_fields r) recs ->
  recs <> [] ->
  msg_controllen msg = Z.of_nat (length (before ++ cmsgs_bytes recs)) ->
  msg_controllen msg <= 2 ^ 62 ->
  (length recs < fuel)%nat ->
  scan_cmsgs fuel msg (before ++ cmsgs_bytes recs ++ after) (Some (Z.of_nat (length before))) l
  = Returns l.
Proof.
  induction recs as [|r recs IH]; intros before fuel after l Hrecs Hne Hlen Hmax Hfuel;
    [done|].
  destruct fuel as [|fuel]; [simpl in Hfuel; lia|].
  inversion Hrecs as [|? ? [Hnr Hint] Hrecs']; subst.
  change (cmsgs_bytes (r :: recs)) with (cmsg_bytes r ++ cmsgs_bytes recs) in *.
  rewrite <- !app_assoc.
  rewrite scan_cmsgs_skip by done.
  destruct recs as [|r' recs'].
  - change (cmsgs_bytes []) with (@nil Z) in *. rewrite app_nil_r in Hlen. cbn [app].
    rewrite CMSG_NXTHDR_last by done.
    cbn [defined mbind outcome_bind]. by destruct fuel.
  - change (cmsgs_bytes (r' :: recs')) with (cmsg_bytes r' ++ cmsgs_bytes recs') in *.
    rewrite <- !app_assoc.
    rewrite CMSG_NXTHDR_next by (rewrite !length_app in *; lia).
    cbn [defined mbind outcome_bind].
    rewrite (app_assoc before (cmsg_bytes r)).
    rewrite (app_assoc (cmsg_bytes r') (cmsgs_bytes recs') after).
    change (cmsg_bytes r' ++ cmsgs_bytes recs') with (cmsgs_bytes (r' :: recs')).
    apply IH; [done | done | | done | simpl in *; lia].
    rewrite Hlen. rewrite <- !app_assoc. done.
Qed.
End OtherRecords.

(** X7. Control records of other levels or types are passed over: when
    the control data that [recvmsg] left holds only records that are not
    [SOL_SOCKET]/[SCM_RIGHTS], [wrapper_recv_msg] returns the byte count and
    the empty descriptor list. *)
Theorem recv_ignores_other_records {OS : Type} `{!Posix OS}
    (fd n_iovs : Z) (iovs : list iovec) (w w' : OS) (r : Z) (msg : msghdr)
    (recs : list Kernel.cmsg) (after : list Z) :
  recvmsg fd (recv_msghdr true n_iovs iovs) 0 w = (r, msg, w') ->
  0 <= r <= INT_MAX ->
  msg_control msg = Some (cmsgs_bytes recs ++ after) ->
  Forall (fun c => ~ is_rights c /\ int_fields c) recs ->
  msg_controllen msg = Z.of_nat (length (cmsgs_bytes recs)) ->
  msg_controllen msg <= msg_controllen (recv_msghdr true n_iovs iovs) ->
  wrapper_recv_msg true fd n_iovs iovs w = (Returns (Block [Val_int r; Val_int 0]), w').
Proof.
  intros Hcall Hr Hctl Hrecs Hlen Hcap. unfold wrapper_recv_msg. rewrite Hcall.
  rewrite to_int_small by (unfold INT_MIN, INT_MAX in *; lia).
  rewrite decide_False by lia.
  rewrite recv_msghdr_controllen in Hcap.
  assert (Hfds : recv_fds true msg = Returns (Val_int 0)); [|by rewrite Hfds].
  unfold recv_fds, CMSG_FIRSTHDR. rewrite Hctl. cbn [default].
  destruct recs as [|c recs].
  - rewrite decide_False by (rewrite Hlen; by vm_compute). done.
  - pose proof (data_len_le_length c) as Hc.
    assert (0 <= data_len c) by (unfold data_len; lia).
    pose proof (length_cmsgs_bytes_ge recs) as Hn.
    pose proof Hlen as Hlen0.
    change (cmsgs_bytes (c :: recs)) with (cmsg_bytes c ++ cmsgs_bytes recs) in Hlen.
    rewrite length_app in Hlen. unfold sizeof_cmsghdr in *.
    rewrite decide_True by lia.
    apply (scan_cmsgs_no_rights msg (c :: recs) [] _ after (Val_int 0));
      [done | done | exact Hlen0 | lia | simpl; lia].
Qed.

(** ** Receiving: a rights record shorter than its header *)

(** X8. A rights record whose [cmsg_len] is less than the size of the header
    gives the empty list: the subtraction [cmsg_len - CMSG_LEN(0)] wraps
    around in [size_t], the quotient converted to [int] is negative, and the
    loop that reads the descriptors does not run. Nothing is read of the
    bytes after the header. *)
Theorem recv_short_rights_record {OS : Type} `{!Posix OS}
    (fd n_iovs : Z) (iovs : list iovec) (w w' : OS) (r : Z) (msg : msghdr)
    (len : Z) (rest : list Z) :
  recvmsg fd (recv_msghdr true n_iovs iovs) 0 w = (r, msg, w') ->
  0 <= r <= INT_MAX ->
  msg_control msg = Some (cmsghdr_bytes len SOL_SOCKET SCM_RIGHTS ++ rest) ->
  0 <= len < sizeof_cmsghdr ->
  sizeof_cmsghdr <= msg_controllen msg ->
  wrapper_recv_msg true fd n_iovs iovs w = (Returns (Block [Val_int r; Val_int 0]), w').
Proof.
  intros Hcall Hr Hctl Hlen Hcl. unfold wrapper_recv_msg. rewrite Hcall.
  rewrite to_int_small by (unfold INT_MIN, INT_MAX in *; lia).
  rewrite decide_False by lia.
  assert (Hfds : recv_fds true msg = Returns (Val_int 0)); [|by rewrite Hfds].
  unfold recv_fds, CMSG_FIRSTHDR. rewrite Hctl. cbn [default]. unfold id.
  rewrite decide_True by done. cbn [scan_cmsgs].
  unfold cmsghdr_bytes. rewrite <- !app_assoc.
  rewrite (load_int_at _ (le_bytes 8 len) (le_bytes 4 SCM_RIGHTS ++ rest)
             (0 + off_cmsg_level) SOL_SOCKET);
    [| done | by rewrite length_le_bytes | by_computation].
  cbn [defined mbind outcome_bind]. rewrite decide_True by done.
  rewrite (load_int_at _ (le_bytes 8 len ++ le_bytes 4 SOL_SOCKET) rest
             (0 + off_cmsg_type) SCM_RIGHTS);
    [| by rewrite <- !app_assoc | by rewrite length_app, !length_le_bytes | by_computation].
  cbn [defined mbind outcome_bind]. rewrite bool_decide_eq_true_2 by done.
  unfold collect_rights, load_size_t.
  rewrite (load_at 8 _ [] (le_bytes 8 len) (le_bytes 4 SOL_SOCKET ++ le_bytes 4 SCM_RIGHTS ++ rest));
    [| done | done | done].
  cbn [defined mbind outcome_bind].
  rewrite le_value_le_bytes. unfold sizeof_cmsghdr in Hlen.
  rewrite Z.mod_small by lia.
  assert (Hn : Z.to_nat (to_int (to_size_t (len - CMSG_LEN 0) / sizeof_int)) = 0%nat).
  { assert (Hcases : len = 0 \/ len = 1 \/ len = 2 \/ len = 3 \/ len = 4 \/ len = 5 \/
                     len = 6 \/ len = 7 \/ len = 8 \/ len = 9 \/ len = 10 \/ len = 11 \/
                     len = 12 \/ len = 13 \/ len = 14 \/ len = 15) by lia.
    repeat (destruct Hcases as [->|Hcases]; [by vm_compute|]).
    subst len. by vm_compute. }
  rewrite Hn. done.
Qed.

(** ** Sending: a count that is not the length of the list *)

Section CountAndList.
Import Kernel.
Implicit Types (fds pre post : list Z).

Lemma int_array_zeros (m : nat) : int_array (replicate m 0) = replicate (4 * m) 0.
Proof.
  induction m as [|m IH]; [done|].
  change (int_array (replicate (S m) 0)) with (le_bytes 4 0 ++ int_array (replicate m 0)).
  rewrite IH. replace (4 * S m)%nat with (4 + 4 * m)%nat by lia.
  by rewrite replicate_add.
Qed.

(** What [send_control] builds when the count [n] is at least the length of
    the list: the slots the loop does not reach keep the zero of [memset]. *)
Lemma send_control_padded (msg : msghdr) fds (n : nat) :
  (0 < n)%nat -> (length fds <= n)%nat -> Z.of_nat n <= INT_MAX -> Forall is_int fds ->
  send_control msg (Z.of_nat n) (caml_list (Val_int <$> fds))
  = Returns (set_control msg
               (Some (cmsg_bytes (rights (fds ++ replicate (n - length fds) 0))))
               (CMSG_SPACE (Z.of_nat n * sizeof_int))).
Proof.
  intros Hpos Hle Hlen Hint. unfold send_control. rewrite to_size_t_fds by done.
  replace (Z.of_nat n * sizeof_int) with (4 * Z.of_nat n) by (unfold sizeof_int; lia).
  set (z := Z.of_nat n) in *.
  assert (Hn : 0 < z <= INT_MAX) by (unfold z; lia).
  unfold INT_MAX in Hn.
  pose proof (CMSG_ALIGN_bounds (4 * z)) as Hal.
  rewrite CMSG_SPACE_eq, CMSG_LEN_eq by lia. unfold sizeof_cmsghdr.
  set (pad := Z.to_nat (CMSG_ALIGN (4 * z) - 4 * z)).
  set (m := (n - length fds)%nat).
  assert (Hbuf : replicate (Z.to_nat (16 + CMSG_ALIGN (4 * z))) 0
                 = replicate 8 0 ++ replicate 4 0 ++ replicate 4 0
                   ++ replicate (4 * length fds) 0 ++ replicate (4 * m) 0
                   ++ replicate pad 0).
  { rewrite <- !replicate_add. f_equal. unfold pad, m, z in *. lia. }
  unfold CMSG_FIRSTHDR. cbn [msg_controllen msg_control set_control].
  rewrite decide_True by (unfold sizeof_cmsghdr; lia).
  cbn [defined mbind outcome_bind]. rewrite Hbuf.
  unfold store_int, store_size_t, off_cmsg_level, off_cmsg_type, off_cmsg_len, CMSG_DATA,
    sizeof_cmsghdr.
  erewrite (store_at 4 _ (replicate 8 0) (replicate 4 0)); [| done | done | done].
  cbn [defined mbind outcome_bind].
  erewrite (store_at 4 _ (replicate 8 0 ++ le_bytes 4 SOL_SOCKET) (replicate 4 0));
    [| by rewrite <- !app_assoc | done | done].
  cbn [defined mbind outcome_bind].
  erewrite (store_at 8 _ [] (replicate 8 0)); [| by rewrite <- !app_assoc | done | done].
  cbn [defined mbind outcome_bind].
  pose proof (write_fds_int_array fds
                (le_bytes 8 (16 + 4 * z) ++ le_bytes 4 SOL_SOCKET ++ le_bytes 4 SCM_RIGHTS)
                (replicate (4 * m) 0 ++ replicate pad 0) Hint) as Hw.
  rewrite !length_app, !length_le_bytes in Hw. rewrite <- !app_assoc in Hw.
  change (Z.of_nat (8 + (4 + 4))) with (0 + 16) in Hw.
  cbn [app]. rewrite Hw. cbn [defined mbind outcome_bind].
  unfold set_control. cbn [msg_name msg_namelen msg_iov msg_iovlen msg_flags].
  do 3 f_equal. unfold cmsg_bytes, rights. cbn [c_data c_level c_type].
  rewrite length_int_array, length_app, length_replicate.
  replace (Z.of_nat (4 * (length fds + m))) with (4 * z) by (unfold m, z; lia).
  rewrite CMSG_LEN_eq by lia.
  rewrite int_array_app, int_array_zeros, <- !app_assoc. done.
Qed.
End CountAndList.

(** X9. The count is not checked against the list. With descriptor
    passing, a send whose count [n] (at most 256) is larger than the length of
    the list announces [n] descriptors: the record holds the descriptors of
    the list followed by 0 for each one missing, and on the reference kernel
    the peer receives that longer list. *)
Theorem send_count_exceeds_list
    (m_s m_r : Z -> Z) (fd_s fd_r n_iovs n_r : Z) (iovs_s iovs_r : list iovec)
    (fds : list Z) (n : nat) :
  (0 < n <= 256)%nat ->
  (length fds <= n)%nat ->
  Forall is_int fds ->
  Z.of_nat (length (Kernel.gather m_s (take (Z.to_nat (to_size_t n_iovs)) iovs_s))) <= INT_MAX ->
  let sent_fds := fds ++ replicate (n - length fds) 0 in
  let sent := wrapper_send_msg true fd_s n_iovs iovs_s
                (Val_int (Z.of_nat n)) (caml_list (Val_int <$> fds))
                (Kernel.fresh m_s fd_s) in
  let rcvd := wrapper_recv_msg true fd_r n_r iovs_r (Kernel.peer (snd sent) m_r fd_r) in
  send_msghdr true n_iovs iovs_s (Val_int (Z.of_nat n)) (caml_list (Val_int <$> fds))
  = Returns (set_control (set_iov msghdr_zero iovs_s (to_size_t n_iovs))
               (Some (cmsg_bytes (rights sent_fds)))
               (CMSG_SPACE (Z.of_nat n * sizeof_int))) /\
  exists cnt, fst rcvd = Returns (Block [Val_int cnt; caml_list (Val_int <$> sent_fds)]).
Proof.
  intros Hn Hle Hint Hdata. cbv zeta.
  set (ds := fds ++ replicate (n - length fds) 0).
  assert (Hlen : length ds = n) by (unfold ds; rewrite length_app, length_replicate; lia).
  assert (Hne : ds <> []) by (intros E; rewrite E in Hlen; simpl in Hlen; lia).
  assert (Hmax : Z.of_nat n <= INT_MAX) by (unfold INT_MAX; lia).
  assert (Hds : Forall is_int ds).
  { apply Forall_app. split; [done|]. apply Forall_replicate. by_computation. }
  assert (Hhdr : send_msghdr true n_iovs iovs_s (Val_int (Z.of_nat n))
                   (caml_list (Val_int <$> fds))
                 = Returns (set_control (set_iov msghdr_zero iovs_s (to_size_t n_iovs))
                              (Some (cmsg_bytes (rights ds)))
                              (CMSG_SPACE (Z.of_nat n * sizeof_int)))).
  { unfold send_msghdr.
    rewrite Int_val_Val_int by (unfold INT_MIN, INT_MAX in *; lia).
    cbn [defined mbind outcome_bind]. rewrite decide_True by lia.
    apply send_control_padded; [lia | done | done | done]. }
  split; [exact Hhdr|].
  set (hdr := set_control (set_iov msghdr_zero iovs_s (to_size_t n_iovs))
                (Some (cmsg_bytes (rights ds)))
                (CMSG_SPACE (Z.of_nat n * sizeof_int))) in *.
  assert (Hparse : Kernel.parse_control hdr = Some [rights ds]).
  { unfold hdr. rewrite <- Hlen. apply parse_control_rights; [done | by rewrite Hlen]. }
  destruct (wrapper_send_msg_queues true fd_s n_iovs iovs_s _ _ (Kernel.fresh m_s fd_s)
              hdr [rights ds] Hhdr eq_refl Hparse) as [-> _].
  set (msg1 := {| Kernel.payload :=
                    Kernel.gather m_s (take (Z.to_nat (to_size_t n_iovs)) iovs_s);
                  Kernel.ancillary := [rights ds] |}).
  eexists.
  rewrite (wrapper_recv_msg_takes true fd_r n_r iovs_r
             (Kernel.peer (Kernel.enqueue (Kernel.fresh m_s fd_s) hdr [rights ds]) m_r fd_r)
             msg1 [] eq_refl eq_refl).
  - cbn [fst]. unfold msg1. rewrite recv_fds_delivered_rights by (done || lia). done.
  - unfold Kernel.data_in, msg1. cbn [Kernel.payload]. rewrite length_take. lia.
Qed.

(** ** Sending: a list longer than the space reserved for the count *)

Section ListOverruns.
Implicit Types (fds ctl : list Z).

Lemma length_store (n : nat) ctl (off v : Z) ctl' :
  store n ctl off v = Some ctl' -> length ctl' = length ctl.
Proof.
  unfold store. case_decide as Hb; [|done]. intros [= <-]. destruct Hb as [H0 Hn].
  rewrite !length_app, length_take, length_le_bytes, length_drop. lia.
Qed.

Lemma store_outside (n : nat) ctl (off v : Z) :
  Z.of_nat (length ctl) < off + Z.of_nat n -> store n ctl off v = None.
Proof.
  intros Hout. unfold store. rewrite decide_False; [done|]. intros [_ Hn]. lia.
Qed.

(** The loop writes one [int] for each element of the list, whatever the
    size of the buffer: when the list does not fit it writes past the end. *)
Lemma write_fds_overrun fds : forall ctl (p : Z),
  Forall is_int fds ->
  p <= Z.of_nat (length ctl) < p + 4 * Z.of_nat (length fds) ->
  write_fds ctl p (caml_list (Val_int <$> fds)) = None.
Proof.
  induction fds as [|d fds IH]; intros ctl p Hint Hp; [simpl in Hp; lia|].
  inversion Hint as [|? ? Hd Hds]; subst.
  change (caml_list (Val_int <$> d :: fds))
    with (Block [Val_int d; caml_list (Val_int <$> fds)]).
  cbn [write_fds]. rewrite Int_val_Val_int by done. cbn [mbind option_bind].
  destruct (store_int ctl p d) as [ctl'|] eqn:Hst; [|done]. cbn [mbind option_bind].
  unfold store_int in Hst.
  pose proof (length_store _ _ _ _ _ Hst) as Hl.
  assert (Hin : p + 4 <= Z.of_nat (length ctl)).
  { destruct (decide (p + 4 <= Z.of_nat (length ctl))) as [|Hout]; [done|].
    rewrite store_outside in Hst by lia. done. }
  apply IH; [done|]. unfold sizeof_int. rewrite Hl. simpl length in Hp. lia.
Qed.

Lemma CMSG_ALIGN_ints (n : Z) :
  0 <= n <= INT_MAX -> CMSG_ALIGN (n * sizeof_int) = sizeof_int * (2 * ((n + 1) / 2)).
Proof.
  intros Hn. unfold INT_MAX, sizeof_int in *. rewrite CMSG_ALIGN_eq by lia.
  pose proof (Z.div_mod (n + 1) 2 ltac:(lia)) as Hq.
  pose proof (Z.mod_pos_bound (n + 1) 2 ltac:(lia)) as Hr.
  assert (Hd : (n * 4 + 7) / 8 = (n + 1) / 2); [|lia].
  symmetry. apply (Z.div_unique_pos _ _ _ (n * 4 + 7 - 8 * ((n + 1) / 2))); lia.
Qed.
End ListOverruns.

(** X10. The list is not checked against the count either. With descriptor
    passing and a count [n > 0], the control buffer has room for [n]
    descriptors rounded up to an even number; a list with more elements makes
    the loop write past the end of the buffer. That is undefined behaviour,
    and it comes before [sendmsg]: the system is not called, whatever it is. *)
Theorem send_list_overruns_control {OS : Type} `{!Posix OS}
    (fd n_iovs : Z) (iovs : list iovec) (n : Z) (fds : list Z) (w : OS) :
  0 < n <= INT_MAX ->
  Forall is_int fds ->
  2 * ((n + 1) / 2) < Z.of_nat (length fds) ->
  wrapper_send_msg true fd n_iovs iovs (Val_int n) (caml_list (Val_int <$> fds)) w
  = (Undefined, w).
Proof.
  intros Hn Hint Hlong.
  assert (Hhdr : send_msghdr true n_iovs iovs (Val_int n) (caml_list (Val_int <$> fds))
                 = Undefined); [|unfold wrapper_send_msg; by rewrite Hhdr].
  unfold send_msghdr. rewrite Int_val_Val_int by (unfold INT_MIN, INT_MAX in *; lia).
  cbn [defined mbind outcome_bind]. rewrite decide_True by lia.
  unfold send_control.
  pose proof (CMSG_ALIGN_ints n ltac:(lia)) as Hal.
  assert (Hsz : to_size_t (to_size_t n * sizeof_int) = n * sizeof_int).
  { unfold INT_MAX, sizeof_int in *.
    rewrite !to_size_t_small; unfold SIZE_MAX; try lia.
    rewrite to_size_t_small; unfold SIZE_MAX; lia. }
  rewrite Hsz.
  assert (Hhalf : 0 <= (n + 1) / 2 <= n).
  { pose proof (Z.div_mod (n + 1) 2 ltac:(lia)) as Hq.
    pose proof (Z.mod_pos_bound (n + 1) 2 ltac:(lia)) as Hr. lia. }
  unfold INT_MAX, sizeof_int in *.
  rewrite CMSG_SPACE_eq, CMSG_LEN_eq by lia. rewrite Hal. unfold sizeof_cmsghdr.
  set (a := 4 * (2 * ((n + 1) / 2))) in *.
  assert (Hbuf : replicate (Z.to_nat (16 + a)) 0
                 = replicate 8 0 ++ replicate 4 0 ++ replicate 4 0
                   ++ replicate (Z.to_nat a) 0).
  { rewrite <- !replicate_add. f_equal. lia. }
  unfold CMSG_FIRSTHDR. cbn [msg_controllen msg_control set_control].
  rewrite decide_True by (unfold sizeof_cmsghdr; lia).
  cbn [defined mbind outcome_bind]. rewrite Hbuf.
  unfold store_int, store_size_t, off_cmsg_level, off_cmsg_type, off_cmsg_len, CMSG_DATA,
    sizeof_cmsghdr.
  erewrite (store_at 4 _ (replicate 8 0) (replicate 4 0)); [| done | done | done].
  cbn [defined mbind outcome_bind].
  erewrite (store_at 4 _ (replicate 8 0 ++ le_bytes 4 SOL_SOCKET) (replicate 4 0));
    [| by rewrite <- !app_assoc | done | done].
  cbn [defined mbind outcome_bind].
  erewrite (store_at 8 _ [] (replicate 8 0)); [| by rewrite <- !app_assoc | done | done].
  cbn [defined mbind outcome_bind].
  rewrite write_fds_overrun; [done | done |].
  cbn [app]. rewrite !length_app, !length_le_bytes, length_replicate. lia.
Qed.

(** ** From OCaml buffers to the message on the wire *)

Section BuffersToWire.
Import Kernel.
Implicit Types (d : buffer_descriptor) (ds : list buffer_descriptor) (m : Z -> Z).

(** Reading the entry of a descriptor from a memory that holds its region
    gives the slice. *)
Lemma read_bytes_slice m d :
  valid_descriptor d -> in_region d -> holds m d ->
  read_bytes m (region_base d + offset d) (Z.to_nat (len d)) = slice d.
Proof.
  intros (Hb & Ho & Hl & _) Hin Hm. unfold in_region in Hin.
  apply list_eq. intros i. unfold read_bytes, slice.
  rewrite list_lookup_fmap.
  destruct (decide (i < Z.to_nat (len d))%nat) as [Hi|Hi].
  - rewrite lookup_seq_lt by done. cbn [fmap option_fmap option_map].
    rewrite lookup_take_lt by done. rewrite lookup_drop.
    destruct (region_bytes d !! (Z.to_nat (offset d) + i)%nat) as [b|] eqn:E.
    + f_equal. rewrite <- (Hm _ _ E). f_equal. lia.
    + apply lookup_ge_None in E. lia.
  - rewrite lookup_seq_ge by lia. cbn [fmap option_fmap option_map].
    symmetry. apply lookup_ge_None. rewrite length_take. lia.
Qed.

Lemma gather_slices m ds :
  Forall valid_descriptor ds -> Forall in_region ds -> Forall (holds m) ds ->
  gather m (lower <$> ds) = concat (slice <$> ds).
Proof.
  induction ds as [|d ds IH]; intros Hv Hi Hm; [done|].
  inversion Hv; inversion Hi; inversion Hm; subst.
  unfold gather. cbn [fmap list_fmap concat lower iov_base iov_len].
  f_equal; [by apply read_bytes_slice|]. by apply IH.
Qed.
End BuffersToWire.

(** X11. The builders and the send together. For buffers given by valid
    descriptors whose slices lie within their regions, in a process whose
    memory holds the regions, the vector that either builder fills and a send
    of as many entries without descriptors put on the wire one message whose
    data is the slices of the buffers, one after the other in list order;
    the stub returns their total length. *)
Theorem send_buffers_payload (have : bool) (m : Z -> Z) (fd : Z)
    (ds : list buffer_descriptor) (out iovs : list iovec) :
  Forall valid_descriptor ds -> Forall in_region ds -> Forall (holds m) ds ->
  (length ds <= length out)%nat ->
  Z.of_nat (length ds) <= INT_MAX ->
  Z.of_nat (length (concat (slice <$> ds))) <= INT_MAX ->
  store_iovs out 0 (caml_list (managed_val <$> ds)) = Some iovs \/
  bytes_store_iovs out 0 (caml_list (external_val <$> ds)) = Some iovs ->
  let sent := wrapper_send_msg have fd (Z.of_nat (length ds)) iovs (Val_int 0) (caml_list [])
                (Kernel.fresh m fd) in
  fst sent = Returns (Val_int (Z.of_nat (length (concat (slice <$> ds))))) /\
  Kernel.tx (snd sent)
  = [{| Kernel.payload := concat (slice <$> ds); Kernel.ancillary := [] |}].
Proof.
  intros Hv Hin Hm Hlen HN Hdata Hbuilt. cbv zeta.
  assert (Hiovs : iovs = (lower <$> ds) ++ drop (length ds) out).
  { pose proof (store_iovs_from ds [] out Hv Hlen) as H1.
    pose proof (bytes_store_iovs_from ds [] out Hv Hlen) as H2.
    cbn [app length] in H1, H2.
    destruct Hbuilt as [Hb|Hb]; congruence. }
  pose proof (send_msghdr_no_fds have (Z.of_nat (length ds)) iovs) as Hhdr.
  set (msg := set_iov msghdr_zero iovs (to_size_t (Z.of_nat (length ds)))) in *.
  assert (Hvec : Kernel.vector msg = lower <$> ds).
  { unfold Kernel.vector, msg. cbn [msg_iovlen msg_iov set_iov].
    rewrite to_size_t_small by (unfold INT_MAX, SIZE_MAX in *; lia).
    rewrite Nat2Z.id, Hiovs. rewrite take_app_length'; [done|]. by rewrite length_fmap. }
  destruct (wrapper_send_msg_queues have fd _ iovs _ _ (Kernel.fresh m fd) msg []
              Hhdr eq_refl eq_refl) as [Hw Hret].
  cbn [Kernel.mem Kernel.fresh] in Hret.
  rewrite Hvec, gather_slices in Hret by done.
  split; [by apply Hret|].
  rewrite Hw. unfold Kernel.enqueue. cbn [Kernel.tx Kernel.fresh Kernel.mem app].
  by rewrite Hvec, gather_slices.
Qed.

(** ** The further properties at concrete inputs *)

(** X4 at a negative offset and a negative length: the entries are
    [{999, 2}] and [{2000, 2^64 - 1}]. *)
Lemma builders_do_not_validate_witness :
  (length ex_unchecked <= length ex_out)%nat /\
  exists iovs,
    store_iovs ex_out 0 (caml_list (managed_val <$> ex_unchecked)) = Some iovs /\
    bytes_store_iovs ex_out 0 (caml_list (external_val <$> ex_unchecked)) = Some iovs /\
    length iovs = length ex_out /\
    forall (i : nat) (d : buffer_descriptor),
      ex_unchecked !! i = Some d ->
      iovs !! i = Some {| iov_base := (region_base d + offset d) mod 2 ^ 64;
                          iov_len := len d mod 2 ^ 64 |}.
Proof.
  split; [simpl; lia|].
  apply (builders_do_not_validate ex_unchecked ex_out). simpl; lia.
Defined.

(** X5 at four descriptors and an array of three entries. *)
Lemma builders_overrun_short_array_witness :
  (length ex_out < length (ex_descriptors ++ ex_descriptors))%nat /\
  store_iovs ex_out 0 (caml_list (managed_val <$> ex_descriptors ++ ex_descriptors)) = None /\
  bytes_store_iovs ex_out 0 (caml_list (external_val <$> ex_descriptors ++ ex_descriptors))
  = None.
Proof.
  split; [simpl; lia|].
  apply (builders_overrun_short_array (ex_descriptors ++ ex_descriptors) ex_out). simpl; lia.
Defined.

(** X6 at a run that starts at entry 1 of three: entry 0 is as before. *)
Lemma builders_keep_size_and_prefix_witness :
  store_iovs ex_out 1 (caml_list (managed_val <$> ex_descriptors))
  = Some [{| iov_base := 0; iov_len := 0 |}; {| iov_base := 1001; iov_len := 2 |};
          {| iov_base := 2000; iov_len := 0 |}] /\
  length [{| iov_base := 0; iov_len := 0 |}; {| iov_base := 1001; iov_len := 2 |};
          {| iov_base := 2000; iov_len := 0 |}] = length ex_out /\
  take 1 [{| iov_base := 0; iov_len := 0 |}; {| iov_base := 1001; iov_len := 2 |};
          {| iov_base := 2000; iov_len := 0 |}] = take 1 ex_out.
Proof.
  split; [reflexivity|].
  apply (builders_keep_size_and_prefix (caml_list (managed_val <$> ex_descriptors))).
  left. reflexivity.
Defined.

(** X7 on the reference kernel: two records of another type are queued. *)
Lemma recv_ignores_other_records_witness :
  let w := ex_receiver [ex_other; ex_other] in
  let reply := recvmsg 4 (recv_msghdr true 3 ex_iovs_r) 0 w in
  let msg := snd (fst reply) in
  msg_control msg = Some (cmsgs_bytes [ex_other; ex_other] ++ replicate 992 0) /\
  Forall (fun c => ~ is_rights c /\ int_fields c) [ex_other; ex_other] /\
  msg_controllen msg = 48 /\
  wrapper_recv_msg true 4 3 ex_iovs_r w
  = (Returns (Block [Val_int 2; Val_int 0]), snd reply).
Proof.
  cbv zeta.
  set (w := ex_receiver [ex_other; ex_other]).
  set (reply := recvmsg 4 (recv_msghdr true 3 ex_iovs_r) 0 w).
  assert (Hctl : msg_control (snd (fst reply))
                 = Some (cmsgs_bytes [ex_other; ex_other] ++ replicate 992 0))
    by reflexivity.
  assert (Hrecs : Forall (fun c => ~ is_rights c /\ int_fields c) [ex_other; ex_other]).
  { repeat constructor; try (intros [_ Hty]; discriminate Hty); by_computation. }
  split; [exact Hctl|]. split; [exact Hrecs|]. split; [reflexivity|].
  exact (recv_ignores_other_records 4 3 ex_iovs_r w (snd reply) 2 (snd (fst reply))
           [ex_other; ex_other] (replicate 992 0)
           eq_refl ltac:(by_computation) Hctl Hrecs
           ltac:(by_computation) ltac:(by_computation)).
Defined.

(** X8 on a system that leaves a rights header with [cmsg_len = 12] in
    front of bytes that would read as descriptors. *)
Lemma recv_short_rights_record_witness :
  let ctl := cmsghdr_bytes 12 SOL_SOCKET SCM_RIGHTS ++ int_array [5; 7] in
  @recvmsg unit (scripted ctl 24) 4 (recv_msghdr true 3 ex_iovs_r) 0 ()
  = (2, set_control (recv_msghdr true 3 ex_iovs_r) (Some ctl) 24, ()) /\
  0 <= 12 < sizeof_cmsghdr /\
  @wrapper_recv_msg unit (scripted ctl 24) true 4 3 ex_iovs_r ()
  = (Returns (Block [Val_int 2; Val_int 0]), ()).
Proof.
  cbv zeta. split; [reflexivity|]. split; [by_computation|].
  exact (@recv_short_rights_record unit
           (scripted (cmsghdr_bytes 12 SOL_SOCKET SCM_RIGHTS ++ int_array [5; 7]) 24)
           4 3 ex_iovs_r () () 2 _ 12 (int_array [5; 7])
           eq_refl ltac:(by_computation) eq_refl ltac:(by_computation)
           ltac:(by_computation)).
Defined.

(** X9 at the count 4 with the two descriptors 5 and 7: the peer receives
    5, 7, 0, 0. *)
Lemma send_count_exceeds_list_witness :
  let sent := wrapper_send_msg true 3 2 ex_iovs_s (Val_int 4) (caml_list (Val_int <$> ex_fds))
                (Kernel.fresh ex_mem 3) in
  let rcvd := wrapper_recv_msg true 4 3 ex_iovs_r (Kernel.peer (snd sent) (fun _ => 0) 4) in
  Forall is_int ex_fds /\
  fst rcvd = Returns (Block [Val_int 5; caml_list (Val_int <$> [5; 7; 0; 0])]) /\
  send_msghdr true 2 ex_iovs_s (Val_int 4) (caml_list (Val_int <$> ex_fds))
  = Returns (set_control (set_iov msghdr_zero ex_iovs_s (to_size_t 2))
               (Some (cmsg_bytes (rights (ex_fds ++ replicate (4 - length ex_fds) 0))))
               (CMSG_SPACE (Z.of_nat 4 * sizeof_int))) /\
  exists cnt,
    fst rcvd
    = Returns (Block [Val_int cnt;
                      caml_list (Val_int <$> ex_fds ++ replicate (4 - length ex_fds) 0)]).
Proof.
  cbv zeta.
  assert (Hint : Forall is_int ex_fds) by (repeat constructor; by_computation).
  split; [exact Hint|]. split; [reflexivity|].
  exact (send_count_exceeds_list ex_mem (fun _ => 0) 3 4 2 3 ex_iovs_s ex_iovs_r ex_fds 4
           ltac:(lia) ltac:(simpl; lia) Hint ltac:(by_computation)).
Defined.

(** X10 at the count 1 with three descriptors: the buffer has room for two. *)
Lemma send_list_overruns_control_witness :
  0 < 1 <= INT_MAX /\
  Forall is_int [5; 7; 9] /\
  2 * ((1 + 1) / 2) < Z.of_nat (length [5; 7; 9]) /\
  wrapper_send_msg true 3 2 ex_iovs_s (Val_int 1) (caml_list (Val_int <$> [5; 7; 9]))
    (Kernel.fresh ex_mem 3)
  = (Undefined, Kernel.fresh ex_mem 3).
Proof.
  assert (Hint : Forall is_int [5; 7; 9]) by (repeat constructor; by_computation).
  split; [by_computation|]. split; [exact Hint|]. split; [by_computation|].
  exact (send_list_overruns_control 3 2 ex_iovs_s 1 [5; 7; 9] (Kernel.fresh ex_mem 3)
           ltac:(by_computation) Hint ltac:(by_computation)).
Defined.

(** X11 at the two buffers of [ex_descriptors]: the bytes 2 and 3 of the
    first, nothing of the second. *)
Lemma send_buffers_payload_witness :
  let iovs := [{| iov_base := 1001; iov_len := 2 |}; {| iov_base := 2000; iov_len := 0 |};
               {| iov_base := 0; iov_len := 0 |}] in
  let sent := wrapper_send_msg true 3 (Z.of_nat (length ex_descriptors)) iovs
                (Val_int 0) (caml_list []) (Kernel.fresh ex_heap 3) in
  Forall valid_descriptor ex_descriptors /\
  Forall in_region ex_descriptors /\
  Forall (holds ex_heap) ex_descriptors /\
  store_iovs ex_out 0 (caml_list (managed_val <$> ex_descriptors)) = Some iovs /\
  concat (slice <$> ex_descriptors) = [2; 3] /\
  fst sent = Returns (Val_int (Z.of_nat (length (concat (slice <$> ex_descriptors))))) /\
  Kernel.tx (snd sent)
  = [{| Kernel.payload := concat (slice <$> ex_descriptors); Kernel.ancillary := [] |}].
Proof.
  cbv zeta.
  assert (Hv : Forall valid_descriptor ex_descriptors).
  { repeat constructor; by_computation. }
  assert (Hin : Forall in_region ex_descriptors) by (repeat constructor; by_computation).
  assert (Hm : Forall (holds ex_heap) ex_descriptors).
  { repeat constructor; intros [|[|[|i]]] b Hb; inversion Hb; reflexivity. }
  split; [exact Hv|]. split; [exact Hin|]. split; [exact Hm|].
  split; [reflexivity|]. split; [reflexivity|].
  exact (send_buffers_payload true ex_heap 3 ex_descriptors ex_out _ Hv Hin Hm
           ltac:(simpl; lia) ltac:(by_computation) ltac:(by_computation)
           (or_introl eq_refl)).
Defined.
